(** * Reactive store helpers: the logging and merge decorators

    A shallow embedding of [src/shared/store.util.ts]: the cycle-safe
    [serializer], the [update] orchestrator, the [loggable] decorator and the
    [mergeable] decorator, over a small model of the JavaScript values, heap
    and console they touch. *)

From Stdlib Require Import ZArith Lia Ascii String.
From stdpp Require Import gmap strings list fin_maps pretty.

Open Scope string_scope.
Open Scope list_scope.

(** ** JavaScript values and heap *)

Module JS.

Abbreviation loc := nat.

(** The class of a function object, as [Object.prototype.toString] reports it:
    only an ordinary function prints as [[object Function]]. *)
Inductive fun_kind := PlainFun | AsyncFun | GeneratorFun.

(** Values.  Numbers are the integer-valued ones; objects and arrays live in
    the heap and are referred to by location; a function value is a handle
    [VFun k f] whose behaviour when called is given by the environment.
    Symbols and BigInts are not modelled. *)
Inductive value :=
| VUndef
| VNull
| VBool (b : bool)
| VNum (n : Z)
| VStr (s : string)
| VRef (l : loc)
| VFun (k : fun_kind) (f : nat).

(** A heap object: a plain object with its own enumerable string-keyed data
    properties (no accessors, no [toJSON]), or a dense array.  An object is a
    finite map: the order in which its keys are enumerated is the map's, not
    the insertion order, and nothing below depends on it. *)
Inductive obj :=
| OObj (props : gmap string value)
| OArr (elems : list value).

Abbreviation heap := (list obj).

#[global] Instance fun_kind_eq_dec : EqDecision fun_kind.
Proof. solve_decision. Defined.
#[global] Instance value_eq_dec : EqDecision value.
Proof. solve_decision. Defined.

(** [a === b] *)
Definition strict_eq (a b : value) : bool := bool_decide (a = b).

(** Truthiness, as the conditional operators test it. *)
Definition truthy (v : value) : bool :=
  match v with
  | VUndef | VNull => false
  | VBool b => b
  | VNum n => negb (n =? 0)%Z
  | VStr s => negb (String.eqb s EmptyString)
  | VRef _ | VFun _ _ => true
  end.

(** [{}.toString.call(v)] *)
Definition class_string (h : heap) (v : value) : string :=
  match v with
  | VUndef => "[object Undefined]"
  | VNull => "[object Null]"
  | VBool _ => "[object Boolean]"
  | VNum _ => "[object Number]"
  | VStr _ => "[object String]"
  | VRef l => match h !! l with
              | Some (OArr _) => "[object Array]"
              | _ => "[object Object]"
              end
  | VFun PlainFun _ => "[object Function]"
  | VFun AsyncFun _ => "[object AsyncFunction]"
  | VFun GeneratorFun _ => "[object GeneratorFunction]"
  end.

(** The key of array index [i]. *)
Definition index_key (i : nat) : string := pretty i.

(** The entries [(key, value)] of a dense sequence, in index order. *)
Definition array_entries (xs : list value) : list (string * value) :=
  imap (fun i x => (index_key i, x)) xs.

(** The properties of a dense sequence, keyed by index. *)
Definition index_props (xs : list value) : gmap string value :=
  list_to_map (array_entries xs).

Fixpoint chars (s : string) : list value :=
  match s with
  | EmptyString => []
  | String c s' => VStr (String c EmptyString) :: chars s'
  end.

(** The own enumerable properties an object spread [{...v}] copies.
    [undefined], [null], booleans, numbers and functions contribute none; a
    string contributes its characters by index; a location outside the heap
    is read as an object without properties. *)
Definition own_props (h : heap) (v : value) : gmap string value :=
  match v with
  | VRef l => match h !! l with
              | Some (OObj m) => m
              | Some (OArr xs) => index_props xs
              | None => ∅
              end
  | VStr s => index_props (chars s)
  | _ => ∅
  end.

(** [{...a, ...b}]: the properties of [a] overlaid by those of [b]. *)
Definition spread (h : heap) (a b : value) : gmap string value :=
  own_props h b ∪ own_props h a.

Definition alloc (o : obj) (h : heap) : loc * heap := (length h, h ++ [o]).

End JS.

Import JS.

(** ** Strings: [split], [join] and JSON quoting *)

Module Str.

(** [s.split(sep)] for a non-empty separator: the pieces of [s] between the
    successive occurrences of [sep], scanning from the left.  [skip] counts
    the characters of a matched separator still to pass over. *)
Fixpoint split_go (sep : string) (skip : nat) (acc : string) (s : string)
  : list string :=
  match s with
  | EmptyString => [acc]
  | String c s' =>
      match skip with
      | S k => split_go sep k acc s'
      | O =>
          if String.prefix sep s
          then acc :: split_go sep (String.length sep - 1) EmptyString s'
          else split_go sep 0 (acc +:+ String c EmptyString) s'
      end
  end.

Definition split (sep s : string) : list string := split_go sep 0 EmptyString s.

(** [l.join(sep)] on an array of strings. *)
Fixpoint join (sep : string) (l : list string) : string :=
  match l with
  | [] => EmptyString
  | [x] => x
  | x :: l' => x +:+ sep +:+ join sep l'
  end.

Definition dquote : string := String "034"%char EmptyString.
Definition backslash : string := String "092"%char EmptyString.

Definition hex_digit (n : nat) : string :=
  String (nth n (list_ascii_of_string "0123456789abcdef") "0"%char) EmptyString.

(** The escape JSON uses for one character inside a string literal. *)
Definition escape_char (c : ascii) : string :=
  let n := nat_of_ascii c in
  if (n =? 34)%nat then backslash +:+ dquote
  else if (n =? 92)%nat then backslash +:+ backslash
  else if (n =? 8)%nat then backslash +:+ "b"
  else if (n =? 9)%nat then backslash +:+ "t"
  else if (n =? 10)%nat then backslash +:+ "n"
  else if (n =? 12)%nat then backslash +:+ "f"
  else if (n =? 13)%nat then backslash +:+ "r"
  else if (n <? 32)%nat then backslash +:+ "u00" +:+ hex_digit (n / 16) +:+ hex_digit (n mod 16)
  else String c EmptyString.

Fixpoint escape (s : string) : string :=
  match s with
  | EmptyString => EmptyString
  | String c s' => escape_char c +:+ escape s'
  end.

(** The JSON string literal for [s]. *)
Definition quote (s : string) : string := dquote +:+ escape s +:+ dquote.

(** [needle] occurs in [hay]. *)
Definition occurs (needle hay : string) : Prop :=
  exists pre post, hay = pre +:+ needle +:+ post.

End Str.

(** ** JSON texts *)

Module Json.

(** A JSON text, kept as its syntax tree; [render] gives its characters. *)
#[warnings="-register-all"] Inductive json :=
| JNull
| JBool (b : bool)
| JNum (n : Z)
| JStr (s : string)
| JArr (items : list json)
| JObj (members : list (string * json)).

Fixpoint render (t : json) : string :=
  match t with
  | JNull => "null"
  | JBool true => "true"
  | JBool false => "false"
  | JNum n => pretty n
  | JStr s => Str.quote s
  | JArr items => "[" +:+ Str.join "," (map render items) +:+ "]"
  | JObj members =>
      "{" +:+ Str.join "," (map (fun m => Str.quote (fst m) +:+ ":" +:+ render (snd m)) members) +:+ "}"
  end.

End Json.

Import Json.

(** ** The cycle-safe serializer *)

(** The two arrays the replacer closure owns. *)
Record ser_state := SerState { stack : list value; keys : list string }.

(** A replacer or cycle replacer supplied by the caller, called as
    [f.call(this, key, value)]. *)
Definition rfun := value -> string -> value -> value.

Fixpoint index_from (x : value) (l : list value) (i : Z) : Z :=
  match l with
  | [] => (-1)%Z
  | y :: l' => if strict_eq y x then i else index_from x l' (i + 1)%Z
  end.

(** [l.indexOf(x)]: the first position of [x], or [-1]. *)
Definition indexOf (x : value) (l : list value) : Z := index_from x l 0.

(** [~i] as a condition: false exactly at [-1]. *)
Definition tilde (i : Z) : bool := negb (Z.lnot i =? 0)%Z.

(** [l.slice(0, e)]; a negative end counts from the end of [l]. *)
Definition slice0 {A} (e : Z) (l : list A) : list A :=
  if (e <? 0)%Z then take (Z.to_nat (Z.of_nat (length l) + e)) l
  else take (Z.to_nat e) l.

(** The cycle replacer [serializer] installs when none is given. *)
Definition default_cycleReplacer (st : ser_state) : rfun :=
  fun _ key value =>
    if strict_eq (default VUndef (stack st !! 0)) value
    then VStr "[Circular ~]"
    else VStr ("[Circular ~."
               +:+ Str.join "." (slice0 (indexOf value (stack st)) (keys st))
               +:+ "]").

(** The function [serializer(replacer, cycleReplacer)] returns, with the
    closure's arrays passed in and out. *)
Definition serializer (replacer cycleReplacer : option rfun)
    (this : value) (key : string) (value0 : value) (st : ser_state)
  : value * ser_state :=
  let '(value1, st1) :=
    if (0 <? length (stack st))%nat
    then
      let thisPos := indexOf this (stack st) in
      let stack' :=
        if tilde thisPos then take (Z.to_nat (thisPos + 1)) (stack st)
        else stack st ++ [this] in
      let keys' :=
        if tilde thisPos then take (Z.to_nat thisPos) (keys st) ++ [key]
        else keys st ++ [key] in
      let st' := SerState stack' keys' in
      if tilde (indexOf value0 stack')
      then (match cycleReplacer with
            | None => default_cycleReplacer st' this key value0
            | Some f => f this key value0
            end, st')
      else (value0, st')
    else (value0, SerState (stack st ++ [value0]) (keys st))
  in
  match replacer with
  | None => (value1, st1)
  | Some r => (r this key value1, st1)
  end.

Definition serializer_init : ser_state := SerState [] [].

(** ** [JSON.stringify] with a replacer function *)

Section Stringify.

(** The replacer's closure state and the replacer itself. *)
Context {St : Type} (rep : value -> string -> value -> St -> value * St).
Variable h : heap.

(** The result of a serialization step: a value and the replacer's state,
    the TypeError raised on a cyclic structure, or the recursion budget
    running out. *)
Inductive sres (A : Type) :=
| SOk (a : A) (st : St)
| SCyclic
| SDeep.
Arguments SOk {A} a st.
Arguments SCyclic {A}.
Arguments SDeep {A}.

(** Serialize the entries of an object or array in turn, threading the
    replacer's state. *)
Fixpoint ser_entries {A} (f : string -> value -> St -> sres A)
    (l : list (string * value)) (st : St) : sres (list (string * A)) :=
  match l with
  | [] => SOk [] st
  | (k, x) :: l' =>
      match f k x st with
      | SOk a st1 =>
          match ser_entries f l' st1 with
          | SOk r st2 => SOk ((k, a) :: r) st2
          | SCyclic => SCyclic
          | SDeep => SDeep
          end
      | SCyclic => SCyclic
      | SDeep => SDeep
      end
  end.

(** Members whose value serialized to [undefined] are left out of an
    object; in an array they read [null]. *)
Definition object_members (r : list (string * option json)) : list (string * json) :=
  omap (fun m => match snd m with Some t => Some (fst m, t) | None => None end) r.
Definition array_items (r : list (string * option json)) : list json :=
  map (fun m => default JNull (snd m)) r.

(** SerializeJSONProperty: the value under [key] of [holder] is [x]; it is
    passed through the replacer and serialized.  [open] is the list of
    objects being serialized, [n] bounds the nesting depth. *)
Fixpoint SerializeJSONProperty (n : nat) (open : list loc) (holder : value)
    (key : string) (x : value) (st : St) : sres (option json) :=
  let '(v, st) := rep holder key x st in
  match v with
  | VUndef | VFun _ _ => SOk None st
  | VNull => SOk (Some JNull) st
  | VBool b => SOk (Some (JBool b)) st
  | VNum z => SOk (Some (JNum z)) st
  | VStr s => SOk (Some (JStr s)) st
  | VRef l =>
      if bool_decide (l ∈ open) then SCyclic
      else
        match n with
        | O => SDeep
        | S n' =>
            let sub := SerializeJSONProperty n' (open ++ [l]) (VRef l) in
            match h !! l with
            | Some (OArr xs) =>
                match ser_entries sub (array_entries xs) st with
                | SOk r st' => SOk (Some (JArr (array_items r))) st'
                | SCyclic => SCyclic
                | SDeep => SDeep
                end
            | Some (OObj m) =>
                match ser_entries sub (map_to_list m) st with
                | SOk r st' => SOk (Some (JObj (object_members r))) st'
                | SCyclic => SCyclic
                | SDeep => SDeep
                end
            | None => SOk (Some (JObj [])) st
            end
        end
  end.

(** [JSON.stringify(v, rep)]: the text, or [None] for [undefined].  The
    root is serialized as the property with the empty key of a fresh wrapper
    object. *)
Definition JSON_stringify (v : value) (st0 : St) : sres (option json) :=
  SerializeJSONProperty (S (length h)) [] (VRef (length h)) EmptyString v st0.

End Stringify.

Arguments SOk {St A} a st.
Arguments SCyclic {St A}.
Arguments SDeep {St A}.

(** ** The world: heap, stores, console and the logging flag *)

Inductive exn :=
| TypeError
| SyntaxError
| RangeError
| Thrown (v : value).

(** A base container of the framework ([writable]): its current value and the
    values it has notified to subscribers, oldest first. *)
Record cell := Cell { cur : value; published : list value }.

#[global] Instance cell_inhabited : Inhabited cell := populate (Cell VUndef []).

(** An argument handed to the console: a value, or the value [JSON.parse]
    built from a text (kept as the text's tree). *)
Inductive carg :=
| ArgVal (v : value)
| ArgParsed (t : json).

Inductive console_event :=
| GroupCollapsed (args : list carg)
| Log (args : list carg)
| Trace
| GroupEnd.

Record world := World {
  heap_of : heap;
  enabled : bool;                     (* loggable.enabled *)
  console : list console_event;       (* what the console received, in order *)
  stores : gmap nat cell;             (* the base containers *)
  err_stack : string                  (* the text of [new Error().stack] *)
}.

Inductive outcome (A : Type) :=
| Ok (a : A) (w : world)
| Throw (e : exn) (w : world).
Arguments Ok {A} a w.
Arguments Throw {A} e w.

(** Computations over the world that may throw. *)
Definition M (A : Type) : Type := world -> outcome A.

Definition ret {A} (a : A) : M A := fun w => Ok a w.
Definition throw {A} (e : exn) : M A := fun w => Throw e w.
Definition bind {A B} (m : M A) (k : A -> M B) : M B :=
  fun w => match m w with
           | Ok a w' => k a w'
           | Throw e w' => Throw e w'
           end.

Notation "'let!' x := m 'in' k" := (bind m (fun x => k))
  (at level 10, x name, m at level 100, k at level 200).

Definition reads {A} (f : world -> A) : M A := fun w => Ok (f w) w.
Definition modify (f : world -> world) : M unit := fun w => Ok tt (f w).

Definition set_heap (h : heap) (w : world) : world :=
  World h (enabled w) (console w) (stores w) (err_stack w).
Definition set_enabled (b : bool) (w : world) : world :=
  World (heap_of w) b (console w) (stores w) (err_stack w).
Definition set_console (c : list console_event) (w : world) : world :=
  World (heap_of w) (enabled w) c (stores w) (err_stack w).
Definition set_stores (s : gmap nat cell) (w : world) : world :=
  World (heap_of w) (enabled w) (console w) s (err_stack w).

(** Evaluate an object literal: allocate a fresh object whose properties are
    computed from the heap at that point. *)
Definition new_object (props : heap -> gmap string value) : M value :=
  fun w =>
    let '(l, h') := alloc (OObj (props (heap_of w))) (heap_of w) in
    Ok (VRef l) (set_heap h' w).

Definition emit (e : console_event) : M unit :=
  modify (fun w => set_console (console w ++ [e]) w).

(** *** The framework's store *)

(** [writable(value)]: a new base container. *)
Definition writable (init : value) : M nat :=
  fun w =>
    let s := fresh (dom (stores w)) in
    Ok s (set_stores (<[s := Cell init []]> (stores w)) w).

(** [get(store)]: the current value. *)
Definition get (store : nat) : M value :=
  reads (fun w => cur (stores w !!! store)).

(** The framework's change test: objects and functions always count as
    changed, other values when they differ. *)
Definition safe_not_equal (a b : value) : bool :=
  match a with
  | VRef _ | VFun _ _ => true
  | _ => negb (strict_eq a b)
  end.

(** [store.set(v)]: replace the current value and notify the subscribers,
    unless the value did not change. *)
Definition store_set (store : nat) (v : value) : M unit :=
  modify (fun w =>
    let c := stores w !!! store in
    if safe_not_equal (cur c) v
    then set_stores (<[store := Cell v (published c ++ [v])]> (stores w)) w
    else w).

(** ** The logging decorator *)

Section Loggable.

(** The behaviour of a function value when called with one argument. *)
Variable call : nat -> value -> M value.

(** [log(functionName, functionLink, newPartial, prevState, nextState)] *)
Definition log (functionName functionLink : value) (newPartial : value)
    (prevState : carg) (nextState : value) : M unit :=
  let! _ := emit (GroupCollapsed [ArgVal functionName; ArgVal newPartial; ArgVal functionLink]) in
  let! _ := emit (Log [ArgVal (VStr "PREV STATE"); prevState]) in
  let! _ := emit (Log [ArgVal (VStr "NEXT STATE"); ArgVal nextState]) in
  let! _ := emit Trace in
  emit GroupEnd.

(** [JSON.parse(text)] where [text] is what [JSON.stringify] returned: the
    text [undefined] is not JSON. *)
Definition JSON_parse (text : option json) : M carg :=
  match text with
  | Some t => ret (ArgParsed t)
  | None => throw SyntaxError
  end.

(** [JSON.parse(JSON.stringify(v, serializer()))] *)
Definition snapshot (v : value) : M carg :=
  fun w =>
    match JSON_stringify (serializer None None) (heap_of w) v serializer_init with
    | SOk text _ => JSON_parse text w
    | SCyclic => Throw TypeError w
    | SDeep => Throw RangeError w
    end.

(** [f && {}.toString.call(f) === '[object Function]'] as a condition. *)
Definition isFunction (h : heap) (f : value) : bool :=
  truthy f && String.eqb (class_string h f) "[object Function]".

(** [action(prevStore)] *)
Definition apply_action (action prevStore : value) : M value :=
  match action with
  | VFun _ f => call f prevStore
  | _ => throw TypeError
  end.

(** [a[i]] on an array of strings. *)
Definition item (l : list string) (i : nat) : value :=
  match l !! i with
  | Some s => VStr s
  | None => VUndef
  end.

(** [v.split(sep)] on a value: a TypeError unless [v] is a string. *)
Definition split_value (v : value) (sep : string) : M (list string) :=
  match v with
  | VStr s => ret (Str.split sep s)
  | _ => throw TypeError
  end.

(** [update(store, action)] *)
Definition update (store : nat) (action : value) : M unit :=
  let! prevStore := get store in
  let! en := reads enabled in
  let! ps := (if en then snapshot prevStore else ret (ArgVal VUndef)) in
  let! isf := reads (fun w => isFunction (heap_of w) action) in
  let! result := (if isf then apply_action action prevStore else ret action) in
  let! ns := new_object (fun h => spread h prevStore result) in
  let! en' := reads enabled in
  let! _ := (if en'
        then
          let! stack := reads err_stack in
          let! stackInfo := split_value (item (Str.split "at " stack) 4) " " in
          let functionName := item stackInfo 0 in
          let functionLink := item stackInfo 1 in
          log functionName functionLink result ps ns
        else ret tt) in
  store_set store ns.

(** The container [loggableFunction] returns. *)
Record Writable := {
  w_update : value -> M unit;
  w_set : value -> M unit;
  w_store : nat                       (* [subscribe] goes to this store *)
}.

(** [loggableFunction(store)] *)
Definition loggableFunction (store : option nat) : M Writable :=
  let! store := match store with
           | Some s => ret s
           | None => writable VUndef
           end in
  ret {| w_update := fun updater => update store updater;
         w_set := fun value => update store value;
         w_store := store |}.

(** [export const loggable = loggableFunction as Loggable]: the same function,
    carrying the flag [enabled] (the field [enabled] of the world). *)
Definition loggable := loggableFunction.

End Loggable.

(** ** The merge decorator *)

(** The [merge] method [mergeable] adds to the store [w]. *)
Definition merge (w : nat) (value : value) : M unit :=
  let! current := get w in
  let! ns := new_object (fun h => spread h current value) in
  store_set w ns.

(** [mergeable(initialValue)]: a new base container; its [merge] is
    [merge w]. *)
Definition mergeable (initialValue : value) : M nat :=
  writable initialValue.

(** * The serializer against a state-free description *)

(** The placeholder for the ancestor at depth [i] when the keys leading to the
    current property are [ks]. *)
Definition placeholder (i : nat) (ks : list string) : string :=
  match i with
  | O => "[Circular ~]"
  | _ => "[Circular ~." +:+ Str.join "." (take i ks) +:+ "]"
  end.

(** The position of [l] among the open ancestors. *)
Fixpoint position (l : loc) (B : list loc) : option nat :=
  match B with
  | [] => None
  | a :: B' => if bool_decide (a = l) then Some 0 else S <$> position l B'
  end.

(** The entries of the object at [l], as [JSON.stringify] enumerates them. *)
Definition entries (h : heap) (l : loc) : list (string * value) :=
  match h !! l with
  | Some (OObj m) => map_to_list m
  | Some (OArr xs) => array_entries xs
  | None => []
  end.

(** What the serializer makes of the value [x] found at key path [ks] below
    the open ancestors [B]: the heap unfolded as a tree, with every reference
    to an ancestor cut and replaced by its placeholder. *)
Fixpoint unfold (h : heap) (n : nat) (B : list loc) (ks : list string)
    (x : value) : option json :=
  match x with
  | VUndef | VFun _ _ => None
  | VNull => Some JNull
  | VBool b => Some (JBool b)
  | VNum z => Some (JNum z)
  | VStr s => Some (JStr s)
  | VRef l =>
      match position l B with
      | Some i => Some (JStr (placeholder i ks))
      | None =>
          match n with
          | O => None
          | S n' =>
              let sub := map (fun e => (fst e, unfold h n' (B ++ [l]) (ks ++ [fst e]) (snd e)))
                             (entries h l) in
              match h !! l with
              | Some (OArr _) => Some (JArr (array_items sub))
              | _ => Some (JObj (object_members sub))
              end
          end
      end
  end.

(** The replacer's arrays while the entries of [hd] are serialized, [P] being
    the ancestors of [hd] and [ks] the keys leading to [hd]: either [hd] has
    not been seen as a holder yet, or the arrays extend the chain to [hd]. *)
Definition inv_first (P : list loc) (ks : list string) (st : ser_state) : Prop :=
  P ≠ [] ∧ stack st = VRef <$> P ∧ keys st = ks.
Definition inv_seen (P : list loc) (hd : loc) (ks : list string) (st : ser_state) : Prop :=
  ∃ rs rk, stack st = (VRef <$> P) ++ VRef hd :: rs ∧ keys st = ks ++ rk.
Definition inv_pre (P : list loc) (hd : loc) (ks : list string) (st : ser_state) : Prop :=
  inv_first P ks st ∨ inv_seen P hd ks st.


(** ** Reference cycles *)

(** [b] is the value of a property of the object at [a]. *)
Definition edge (h : heap) (a b : loc) : Prop :=
  ∃ k, own_props h (VRef a) !! k = Some (VRef b).

(** [v] contains a reference cycle: an object reachable from [v] through
    property values reaches itself. *)
Definition cyclic (h : heap) (v : value) : Prop :=
  ∃ r a, v = VRef r ∧ rtc (edge h) r a ∧ tc (edge h) a a.

(** Following the keys [ks] from the object at [r] leads to the object at
    [a]. *)
Inductive path (h : heap) : loc → list string → loc → Prop :=
| path_nil r : path h r [] r
| path_cons r k a ks b :
    own_props h (VRef r) !! k = Some (VRef a) →
    path h a ks b →
    path h r (k :: ks) b.

(** The placeholder that names the object reached from the root by the keys
    [ks]. *)
Definition circular (ks : list string) : string :=
  match ks with
  | [] => "[Circular ~]"
  | _ => "[Circular ~." +:+ Str.join "." ks +:+ "]"
  end.

(** Below the open chain [B], which ends in [l], the traversal meets a
    property whose value is on the chain built so far. *)
Inductive hits (h : heap) : list loc → loc → Prop :=
| hits_now B l k a :
    own_props h (VRef l) !! k = Some (VRef a) → a ∈ B → hits h B l
| hits_later B l k a :
    own_props h (VRef l) !! k = Some (VRef a) → hits h (B ++ [a]) a → hits h B l.

(** The open chain [B] with the keys [ks] between its members. *)
Inductive chain (h : heap) : list loc → list string → Prop :=
| chain_root r : chain h [r] []
| chain_snoc B a ks k b :
    chain h (B ++ [a]) ks →
    own_props h (VRef a) !! k = Some (VRef b) →
    chain h ((B ++ [a]) ++ [b]) (ks ++ [k]).

(** ** The pieces of one [update] call *)

(** The partial an action stands for: the action itself, or the result of
    calling it on the previous state when it is a function. *)
Definition eval_action (call : nat -> value -> M value) (action prevStore : value)
  : M value :=
  fun w =>
    if isFunction (heap_of w) action
    then apply_action call action prevStore w
    else Ok action w.

(** The function name and source location [update] reads off a stack text:
    the two first space-separated words of its fifth ['at ']-separated
    entry; nothing when there are fewer than five entries. *)
Definition caller_frame (stk : string) : option (value * value) :=
  match Str.split "at " stk !! 4 with
  | Some frame =>
      let stackInfo := Str.split " " frame in
      Some (item stackInfo 0, item stackInfo 1)
  | None => None
  end.

(** The console report of one logged update. *)
Definition report (functionName functionLink newPartial : value) (prevState : carg)
    (nextState : value) : list console_event :=
  [ GroupCollapsed [ArgVal functionName; ArgVal newPartial; ArgVal functionLink];
    Log [ArgVal (VStr "PREV STATE"); prevState];
    Log [ArgVal (VStr "NEXT STATE"); ArgVal nextState];
    Trace;
    GroupEnd ].

(** The values [JSON.stringify] turns into a text: all but [undefined] and
    functions. *)
Definition has_json (v : value) : Prop :=
  match v with
  | VUndef | VFun _ _ => False
  | _ => True
  end.

(** The text the serializer produces for [v]. *)
Definition clone_text (h : heap) (v : value) : option json :=
  unfold h (S (length h)) [] [] v.

(** The world after the base container [store] took the object [ns]. *)
Definition publish (store : nat) (ns : value) (w : world) : world :=
  set_stores (<[store := Cell ns (published (stores w !!! store) ++ [ns])]> (stores w)) w.

(** ** Concrete states used in examples *)

(** The world when the module has loaded: no object, no store, and
    [loggable.enabled = true]. *)
Definition at_load (trace : string) : world := World [] true [] ∅ trace.

(** [obj.a = inner] with [inner.b = inner]. *)
Definition nested_heap : heap := [OObj {[ "a" := VRef 1 ]}; OObj {[ "b" := VRef 1 ]}].

(** The state [obj] with [obj.self = obj]. *)
Definition self_heap : heap := [OObj {[ "self" := VRef 0 ]}].

(** The text an engine of the V8 family puts in [new Error().stack]: the
    header, then one line per frame. *)
Definition frame_sep : string := String "010"%char "    at ".
Definition stack_text (frames : list string) : string :=
  "Error" +:+ String.concat EmptyString (map (fun f => frame_sep +:+ f) frames).

(** A call of [set] from a click handler, four frames deep. *)
Definition deep_trace : string :=
  stack_text [ "update (store.util.ts:81:17)";
               "Object.set (store.util.ts:13:7)";
               "changeMessage (App.svelte:12:19)";
               "HTMLButtonElement.click_handler (App.svelte:30:5)" ].

(** A call of [set] from the top level of a module, three frames deep. *)
Definition shallow_trace : string :=
  stack_text [ "update (store.util.ts:81:17)";
               "Object.set (store.util.ts:13:7)";
               "main.ts:5:15" ].

(** The messages store holding [{message: 'hello'}] (object 0), with the
    object [{message: 'world'}] (object 1) ready to be set. *)
Definition messages_heap : heap :=
  [ OObj {[ "message" := VStr "hello" ]}; OObj {[ "message" := VStr "world" ]} ].
Definition messages_world (flag : bool) (trace : string) : world :=
  World messages_heap flag [] {[ 0 := Cell (VRef 0) [] ]} trace.

(** A store made by [loggable()] without an argument: it holds [undefined]. *)
Definition empty_world (flag : bool) (trace : string) : world :=
  World messages_heap flag [] {[ 0 := Cell VUndef [] ]} trace.

(** No function value is callable. *)
Definition no_call : nat -> value -> M value := fun _ _ => throw TypeError.

(** An updater that toggles [loggable.enabled] and returns object 1. *)
Definition toggling_call : nat -> value -> M value :=
  fun _ _ w => Ok (VRef 1) (set_enabled (negb (enabled w)) w).

(** ** Further notions used to describe the code *)

(** [JSON.stringify(v)] without a replacer: every value is passed on as it
    is. *)
Definition no_replacer : value -> string -> value -> unit -> value * unit :=
  fun _ _ v st => (v, st).

(** [v] is not a reference, or refers to an object of the heap. *)
Definition in_heap (h : heap) (v : value) : Prop :=
  match v with
  | VRef l => (l < length h)%nat
  | _ => True
  end.

(** The state [{a: 1, b: 2}] (object 0) with the partials [{a: 5}] (object 1)
    and [{b: 7}] (object 2). *)
Definition pair_heap : heap :=
  [ OObj {[ "a" := VNum 1; "b" := VNum 2 ]}; OObj {[ "a" := VNum 5 ]}; OObj {[ "b" := VNum 7 ]} ].
Definition pair_world (flag : bool) (trace : string) : world :=
  World pair_heap flag [] {[ 0 := Cell (VRef 0) [] ]} trace.

(** An updater that returns object 1 and touches nothing. *)
Definition constant_call : nat -> value -> M value := fun _ _ w => Ok (VRef 1) w.

(** An updater that throws the string ['boom']. *)
Definition throwing_call : nat -> value -> M value :=
  fun _ _ w => Throw (Thrown (VStr "boom")) w.

(** [{a: inner, b: inner}] with [inner = {x: 1}]: one object referenced
    twice, no cycle. *)
Definition shared_heap : heap :=
  [ OObj {[ "a" := VRef 1; "b" := VRef 1 ]}; OObj {[ "x" := VNum 1 ]} ].

(** ** Cutting a text at a separator *)

(** What is left of [s] after its first [n] characters. *)
Fixpoint sdrop (n : nat) (s : string) : string :=
  match n, s with
  | O, _ => s
  | S n', String _ s' => sdrop n' s'
  | S _, EmptyString => EmptyString
  end.

(** [sep] occurs in [a ++ tail] at a position inside [a].  With [tail = sep]
    this is false exactly when [sep] neither occurs in [a] nor begins in [a]
    when [a] is followed by [sep]. *)
Fixpoint starts_inside (sep a tail : string) : bool :=
  match a with
  | EmptyString => false
  | String c a' => String.prefix sep (String c a' +:+ tail) || starts_inside sep a' tail
  end.

(** [piece] can stand between two occurrences of ['at '] without creating a
    third one. *)
Definition at_free (piece : string) : bool := negb (starts_inside "at " piece "at ").

(** [word] has no space in it. *)
Definition space_free (word : string) : bool := negb (starts_inside " " word " ").

(** The line break and indentation that precede ['at '] on each line of a
    stack text. *)
Definition frame_gap : string := String "010"%char "    ".
Definition line_break : string := String "010"%char EmptyString.

(** The texts between the ['at '] of [stack_text frames], [head] being the
    text before the first one. *)
Fixpoint trace_pieces (head : string) (frames : list string) : list string :=
  match frames with
  | [] => [head]
  | f :: fs => (head +:+ frame_gap) :: trace_pieces f fs
  end.

(** ** An engine with a bounded nesting depth *)

(** [JSON.stringify(v, rep)] in an engine that can nest [limit] objects deep:
    beyond that the call fails ([SDeep], the engine's RangeError).
    [JSON_stringify] is the case of a budget that exceeds the heap. *)
Definition JSON_stringify_within {St : Type} (limit : nat)
    (rep : value -> string -> value -> St -> value * St) (h : heap)
    (v : value) (st0 : St) : sres (option json) :=
  SerializeJSONProperty rep h limit [] (VRef (length h)) EmptyString v st0.


(** ** Positions in a JSON text *)





(** * Lemmas *)

(** ** [indexOf] *)

Lemma index_from_position l B i :
  index_from (VRef l) (VRef <$> B) i =
  match position l B with
  | Some j => (i + Z.of_nat j)%Z
  | None => (-1)%Z
  end.
Proof.
  revert i. induction B as [|a B IH]; intros i; simpl; [done|].
  unfold strict_eq. destruct (decide (a = l)) as [->|Hne].
  - rewrite !bool_decide_eq_true_2 by done. simpl. lia.
  - rewrite !bool_decide_eq_false_2 by congruence.
    rewrite IH. destruct (position l B); simpl; lia.
Qed.

Lemma position_None l B : position l B = None ↔ l ∉ B.
Proof.
  induction B as [|a B IH]; simpl.
  - split; [intros _; apply not_elem_of_nil | done].
  - case_bool_decide as Ha.
    + subst. split; [done | intros []; left].
    + rewrite not_elem_of_cons, <- IH. destruct (position l B); simpl.
      * split; [done | by intros [_ ?]].
      * split; [by intros _ | done].
Qed.

Lemma position_Some l B i : position l B = Some i → B !! i = Some l.
Proof.
  revert i. induction B as [|a B IH]; intros i; simpl; [done|].
  case_bool_decide as Ha.
  - intros [= <-]. by subst.
  - destruct (position l B) eqn:E; simpl; [|done]. intros [= <-]. by apply IH.
Qed.

Lemma position_app_fresh l P : l ∉ P → position l (P ++ [l]) = Some (length P).
Proof.
  induction P as [|a P IH]; simpl; intros Hl.
  - by rewrite bool_decide_eq_true_2.
  - apply not_elem_of_cons in Hl as [Hne Hl].
    rewrite bool_decide_eq_false_2 by congruence. by rewrite IH.
Qed.

Lemma position_app_l l P Q i : position l P = Some i → position l (P ++ Q) = Some i.
Proof.
  revert i. induction P as [|a P IH]; intros i; simpl; [done|].
  destruct (bool_decide (a = l)); [done|].
  destruct (position l P) as [j|] eqn:E; simpl; [|done].
  intros [= <-]. by rewrite (IH j).
Qed.

Lemma position_zero l a B : position l (a :: B) = Some 0 ↔ a = l.
Proof.
  simpl. case_bool_decide; [naive_solver|].
  destruct (position l B); simpl; naive_solver.
Qed.

Lemma indexOf_prim x B :
  (∀ l, x ≠ VRef l) → indexOf x (VRef <$> B) = (-1)%Z.
Proof.
  intros Hx. unfold indexOf. generalize 0%Z.
  induction B as [|a B IH]; intros i; simpl; [done|].
  unfold strict_eq. rewrite bool_decide_eq_false_2; [apply IH|].
  intros <-. by eapply Hx.
Qed.

Lemma indexOf_seen hd P rs :
  hd ∉ P →
  indexOf (VRef hd) ((VRef <$> P) ++ VRef hd :: rs) = Z.of_nat (length P).
Proof.
  intros Hhd. unfold indexOf.
  assert (∀ i, index_from (VRef hd) ((VRef <$> P) ++ VRef hd :: rs) i
               = (i + Z.of_nat (length P))%Z) as H; [|by rewrite H].
  induction P as [|a P IH]; intros i; simpl.
  - unfold strict_eq. rewrite bool_decide_eq_true_2 by done. lia.
  - apply not_elem_of_cons in Hhd as [Hne Hhd].
    unfold strict_eq. rewrite bool_decide_eq_false_2 by congruence.
    rewrite IH by done. lia.
Qed.

Lemma tilde_nonneg i : (0 <= i)%Z → tilde i = true.
Proof. intros Hi. unfold tilde, Z.lnot. rewrite negb_true_iff. apply Z.eqb_neq. lia. Qed.

Lemma tilde_minus_one : tilde (-1) = false.
Proof. done. Qed.

(** ** One call of the replacer *)

Lemma serializer_holder_step P hd ks key x st :
  hd ∉ P → length ks = length P → inv_pre P hd ks st →
  serializer None None (VRef hd) key x st =
    (match x with
     | VRef l => match position l (P ++ [hd]) with
                 | Some i => VStr (placeholder i (ks ++ [key]))
                 | None => x
                 end
     | _ => x
     end,
     SerState (VRef <$> (P ++ [hd])) (ks ++ [key])).
Proof.
  intros Hhd Hlen Hpre. unfold serializer.
  assert (∃ stack' keys',
    stack' = VRef <$> (P ++ [hd]) ∧ keys' = ks ++ [key] ∧
    (0 <? length (stack st))%nat = true ∧
    (if tilde (indexOf (VRef hd) (stack st))
     then take (Z.to_nat (indexOf (VRef hd) (stack st) + 1)) (stack st)
     else stack st ++ [VRef hd]) = stack' ∧
    (if tilde (indexOf (VRef hd) (stack st))
     then take (Z.to_nat (indexOf (VRef hd) (stack st))) (keys st) ++ [key]
     else keys st ++ [key]) = keys') as (stack' & keys' & Hs & Hk & Hpos & -> & ->).
  { eexists _, _. split; [reflexivity|]. split; [reflexivity|].
    destruct Hpre as [(HP & Hst & Hks)|(rs & rk & Hst & Hks)].
    - rewrite Hst, Hks. split.
      { rewrite length_fmap. destruct P; [done|]. done. }
      unfold indexOf. rewrite index_from_position.
      assert (position hd P = None) as -> by by apply position_None.
      rewrite tilde_minus_one. by rewrite fmap_app.
    - rewrite Hst, Hks. split.
      { rewrite length_app. simpl. apply Nat.ltb_lt. lia. }
      rewrite indexOf_seen by done. rewrite tilde_nonneg by lia.
      replace (Z.to_nat (Z.of_nat (length P) + 1)) with (length (VRef <$> P) + 1)%nat
        by (rewrite length_fmap; lia).
      rewrite Nat2Z.id.
      rewrite take_app_add'. 2: done. simpl. rewrite take_0.
      rewrite <- Hlen. rewrite take_app_length. split; [|done].
      by rewrite fmap_app. }
  rewrite Hpos. subst stack' keys'.
  destruct x as [| |b|z|s|l|k f];
    try (rewrite indexOf_prim by done; by rewrite tilde_minus_one).
  unfold indexOf. rewrite index_from_position.
  destruct (position l (P ++ [hd])) as [i|] eqn:Hposl.
  - rewrite tilde_nonneg by lia. f_equal. unfold default_cycleReplacer. simpl.
    destruct i as [|i].
    + destruct (P ++ [hd]) as [|a B] eqn:EB; [done|].
      apply position_zero in Hposl as ->. simpl.
      unfold strict_eq. by rewrite bool_decide_eq_true_2.
    + destruct (P ++ [hd]) as [|a B] eqn:EB; [done|]. simpl.
      assert (a ≠ l) as Hal.
      { intros ->. assert (position l (l :: B) = Some 0) as E by by apply position_zero.
        congruence. }
      unfold strict_eq at 1. rewrite bool_decide_eq_false_2 by congruence.
      unfold indexOf. rewrite (index_from_position l (a :: B)), Hposl.
      unfold slice0. simpl.
      replace (Z.pos (Pos.of_succ_nat i) <? 0)%Z with false by (symmetry; apply Z.ltb_ge; lia).
      by replace (Z.to_nat (0 + Z.of_nat (S i))) with (S i) by lia.
  - by rewrite tilde_minus_one.
Qed.

(** ** [JSON.stringify] with the serializer computes [unfold] *)

Lemma SerializeJSONProperty_eq {St} (rep : value -> string -> value -> St -> value * St)
    h n open holder key x st :
  SerializeJSONProperty rep h n open holder key x st =
  let '(v, st) := rep holder key x st in
  match v with
  | VUndef | VFun _ _ => SOk None st
  | VNull => SOk (Some JNull) st
  | VBool b => SOk (Some (JBool b)) st
  | VNum z => SOk (Some (JNum z)) st
  | VStr s => SOk (Some (JStr s)) st
  | VRef l =>
      if bool_decide (l ∈ open) then SCyclic
      else
        match n with
        | O => SDeep
        | S n' =>
            let sub := SerializeJSONProperty rep h n' (open ++ [l]) (VRef l) in
            match h !! l with
            | Some (OArr xs) =>
                match ser_entries sub (array_entries xs) st with
                | SOk r st' => SOk (Some (JArr (array_items r))) st'
                | SCyclic => SCyclic
                | SDeep => SDeep
                end
            | Some (OObj m) =>
                match ser_entries sub (map_to_list m) st with
                | SOk r st' => SOk (Some (JObj (object_members r))) st'
                | SCyclic => SCyclic
                | SDeep => SDeep
                end
            | None => SOk (Some (JObj [])) st
            end
        end
  end.
Proof. destruct n; reflexivity. Qed.

Lemma ser_entries_spec {St A} (f : string -> value -> St -> sres A)
    (g : string -> value -> A) (Pre Post : St → Prop) :
  (∀ st, Post st → Pre st) →
  (∀ k x st, Pre st → ∃ st', f k x st = SOk (g k x) st' ∧ Post st') →
  ∀ es st, Pre st →
    ∃ st', ser_entries f es st = SOk (map (fun e => (fst e, g (fst e) (snd e))) es) st'
           ∧ Pre st'.
Proof.
  intros Hweak Hf es. induction es as [|[k x] es IH]; intros st Hst; simpl.
  - by exists st.
  - destruct (Hf k x st Hst) as (st1 & -> & Hst1).
    destruct (IH st1 (Hweak _ Hst1)) as (st2 & -> & Hst2).
    by exists st2.
Qed.

Lemma open_chain_bounded (h : heap) (B : list loc) :
  NoDup B → (∀ a, a ∈ B → (a < length h)%nat) → (length B ≤ length h)%nat.
Proof.
  intros Hnd Hval.
  assert (length B ≤ length (seq 0 (length h)))%nat as Hle; [|by rewrite length_seq in Hle].
  apply NoDup_incl_length; [by apply NoDup_ListNoDup|].
  intros a Ha. apply in_seq. apply list_elem_of_In, Hval in Ha. lia.
Qed.

Lemma snoc_fresh (P : list loc) l : NoDup (P ++ [l]) → l ∉ P.
Proof.
  intros (_ & Hd & _)%NoDup_app Hin. apply (Hd _ Hin). left.
Qed.

Lemma NoDup_snoc_fresh (B : list loc) l : NoDup B → l ∉ B → NoDup (B ++ [l]).
Proof.
  intros HB Hl. apply NoDup_app. split; [done|]. split; [|apply NoDup_singleton].
  by intros a Ha ->%list_elem_of_singleton.
Qed.

Lemma inv_seen_pre P hd ks st : inv_seen P hd ks st → inv_pre P hd ks st.
Proof. by right. Qed.

Lemma inv_children_parent P hd ks key l st :
  inv_pre (P ++ [hd]) l (ks ++ [key]) st → inv_seen P hd ks st.
Proof.
  intros [(_ & Hs & Hk)|(rs & rk & Hs & Hk)].
  - exists [], [key]. by rewrite Hs, Hk, fmap_app.
  - exists (VRef l :: rs), (key :: rk).
    rewrite Hs, Hk, fmap_app. by rewrite <- !app_assoc.
Qed.

Lemma serialize_refines h n :
  ∀ P hd ks key x st,
    NoDup (P ++ [hd]) →
    (∀ a, a ∈ P ++ [hd] → (a < length h)%nat) →
    (length h < n + length (P ++ [hd]))%nat →
    length ks = length P →
    inv_pre P hd ks st →
    ∃ st',
      SerializeJSONProperty (serializer None None) h n (P ++ [hd]) (VRef hd) key x st
      = SOk (unfold h n (P ++ [hd]) (ks ++ [key]) x) st'
      ∧ inv_seen P hd ks st'.
Proof.
  induction n as [|n IH]; intros P hd ks key x st Hnd Hval Hfuel Hlen Hpre.
  { pose proof (open_chain_bounded h _ Hnd Hval). lia. }
  pose proof (snoc_fresh _ _ Hnd) as Hhd.
  rewrite SerializeJSONProperty_eq, (serializer_holder_step P hd ks) by done.
  assert (inv_seen P hd ks (SerState (VRef <$> (P ++ [hd])) (ks ++ [key]))) as Hnow.
  { exists [], [key]. simpl. by rewrite fmap_app. }
  destruct x as [| |b|z|s|l|k f]; try (eexists; split; [reflexivity|done]).
  simpl unfold. destruct (position l (P ++ [hd])) as [i|] eqn:Hpos.
  { eexists; split; [reflexivity|done]. }
  apply position_None in Hpos.
  rewrite bool_decide_eq_false_2 by done.
  assert (∃ st',
    ser_entries (SerializeJSONProperty (serializer None None) h n ((P ++ [hd]) ++ [l]) (VRef l))
      (entries h l) (SerState (VRef <$> (P ++ [hd])) (ks ++ [key]))
    = SOk (map (fun e => (fst e, unfold h n ((P ++ [hd]) ++ [l]) ((ks ++ [key]) ++ [fst e]) (snd e)))
               (entries h l)) st'
    ∧ inv_seen P hd ks st') as (st' & Hrun & Hst').
  { destruct (h !! l) as [o|] eqn:Hl.
    - assert (∀ k y st0, inv_pre (P ++ [hd]) l (ks ++ [key]) st0 →
        ∃ st1, SerializeJSONProperty (serializer None None) h n ((P ++ [hd]) ++ [l]) (VRef l) k y st0
               = SOk (unfold h n ((P ++ [hd]) ++ [l]) ((ks ++ [key]) ++ [k]) y) st1
               ∧ inv_seen (P ++ [hd]) l (ks ++ [key]) st1) as Hsub.
      { intros k y st0 Hst0. apply IH; try done.
        * by apply NoDup_snoc_fresh.
        * intros a [Ha| ->%list_elem_of_singleton]%elem_of_app; [by apply Hval|].
          by eapply lookup_lt_Some.
        * rewrite !length_app. rewrite length_app in Hfuel. simpl in *. lia.
        * rewrite !length_app. simpl. lia. }
      destruct (ser_entries_spec _ _ _ _ (inv_seen_pre _ _ _) Hsub (entries h l)
                  (SerState (VRef <$> (P ++ [hd])) (ks ++ [key])))
        as (st' & Hrun & Hst').
      + left. split; [by destruct P|]. done.
      + exists st'. split; [exact Hrun|]. by eapply inv_children_parent.
    - unfold entries. rewrite Hl. simpl. by eexists. }
  unfold entries in Hrun. simpl.
  destruct (h !! l) as [[m|xs]|] eqn:Hl.
  - rewrite Hrun. exists st'. split; [|done]. unfold entries. by rewrite Hl.
  - rewrite Hrun. exists st'. split; [|done]. unfold entries. by rewrite Hl.
  - eexists; split; [|exact Hnow]. unfold entries. by rewrite Hl.
Qed.

Lemma serializer_root_step this key v :
  serializer None None this key v serializer_init = (v, SerState [v] []).
Proof. reflexivity. Qed.

Lemma JSON_stringify_serializer (h : heap) v :
  ∃ st, JSON_stringify (serializer None None) h v serializer_init
        = SOk (unfold h (S (length h)) [] [] v) st.
Proof.
  unfold JSON_stringify. rewrite SerializeJSONProperty_eq, serializer_root_step.
  destruct v as [| |b|z|s|l|k f]; try (eexists; reflexivity).
  rewrite bool_decide_eq_false_2 by apply not_elem_of_nil.
  simpl unfold.
  destruct (h !! l) as [o|] eqn:Hl.
  2:{ unfold entries. rewrite Hl. simpl. eexists; reflexivity. }
  assert (∀ k y st0, inv_pre [] l [] st0 →
    ∃ st1, SerializeJSONProperty (serializer None None) h (length h) ([] ++ [l]) (VRef l) k y st0
           = SOk (unfold h (length h) ([] ++ [l]) ([] ++ [k]) y) st1
           ∧ inv_seen [] l [] st1) as Hsub.
  { intros k y st0 Hst0. apply (serialize_refines h (length h) [] l []); try done.
    - apply NoDup_singleton.
    - intros a ->%list_elem_of_singleton. by eapply lookup_lt_Some.
    - simpl. lia. }
  destruct (ser_entries_spec _ _ _ _ (inv_seen_pre _ _ _) Hsub (entries h l)
              (SerState [VRef l] [])) as (st' & Hrun & Hst').
  { right. by exists [], []. }
  unfold entries in *. rewrite Hl in *.
  destruct o as [m|xs]; simpl in *; rewrite Hrun; by eexists.
Qed.


(** ** Occurrences in a rendered text *)

Lemma append_cons a s t : String a s +:+ t = String a (s +:+ t).
Proof. reflexivity. Qed.

Lemma append_nil_l s : EmptyString +:+ s = s.
Proof. reflexivity. Qed.

Lemma append_nil_r s : s +:+ EmptyString = s.
Proof. induction s as [|a s IH]; [done|]. by rewrite append_cons, IH. Qed.

Lemma append_assoc s1 s2 s3 : (s1 +:+ s2) +:+ s3 = s1 +:+ s2 +:+ s3.
Proof.
  induction s1 as [|a s1 IH]; [done|]. by rewrite !append_cons, IH.
Qed.

Lemma occurs_refl p : Str.occurs p p.
Proof. exists EmptyString, EmptyString. by rewrite append_nil_l, append_nil_r. Qed.

Lemma occurs_app_l p a s : Str.occurs p s → Str.occurs p (a +:+ s).
Proof.
  intros (pre & post & ->). exists (a +:+ pre), post. by rewrite append_assoc.
Qed.

Lemma occurs_app_r p s b : Str.occurs p s → Str.occurs p (s +:+ b).
Proof.
  intros (pre & post & ->). exists pre, (post +:+ b). by rewrite !append_assoc.
Qed.

Lemma occurs_join p sep l x :
  x ∈ l → Str.occurs p x → Str.occurs p (Str.join sep l).
Proof.
  intros Hx Hp. induction l as [|y l IH]; [by apply elem_of_nil in Hx|].
  apply elem_of_cons in Hx as [->|Hx].
  - destruct l; simpl; [done|]. by apply occurs_app_r.
  - destruct l as [|z l]; [by apply elem_of_nil in Hx|].
    change (Str.join sep (y :: z :: l)) with (y +:+ sep +:+ Str.join sep (z :: l)).
    by apply occurs_app_l, occurs_app_l, IH.
Qed.

Lemma occurs_render_obj p members k t :
  (k, t) ∈ members → Str.occurs p (render t) → Str.occurs p (render (JObj members)).
Proof.
  intros Hin Hp. simpl. apply occurs_app_l, occurs_app_r.
  apply (occurs_join _ _ _ (Str.quote k +:+ ":" +:+ render t)).
  - apply list_elem_of_In.
    apply (in_map (fun m => Str.quote (fst m) +:+ ":" +:+ render (snd m)) _ (k, t)).
    by apply list_elem_of_In.
  - by apply occurs_app_l, occurs_app_l.
Qed.

Lemma occurs_render_arr p items t :
  t ∈ items → Str.occurs p (render t) → Str.occurs p (render (JArr items)).
Proof.
  intros Hin Hp. simpl. apply occurs_app_l, occurs_app_r.
  apply (occurs_join _ _ _ (render t)); [|done].
  apply list_elem_of_In, in_map. by apply list_elem_of_In.
Qed.

(** ** Entries and properties *)

Lemma array_entries_keys xs :
  (array_entries xs).*1 = index_key <$> seq 0 (length xs).
Proof.
  unfold array_entries. rewrite fmap_imap.
  assert (∀ j, imap (fun i (x : value) => index_key (j + i)) xs
               = index_key <$> seq j (length xs)) as H.
  { induction xs as [|x xs IH]; intros j; [done|]. simpl.
    rewrite Nat.add_0_r. f_equal.
    rewrite <- IH. apply imap_ext. intros i y _. simpl. f_equal. lia. }
  apply (H 0).
Qed.

Lemma array_entries_NoDup xs : NoDup (array_entries xs).*1.
Proof.
  rewrite array_entries_keys. apply NoDup_fmap_2; [|apply NoDup_seq].
  unfold index_key. apply _.
Qed.

Lemma entries_own_props (h : heap) l k y :
  (k, y) ∈ entries h l ↔ own_props h (VRef l) !! k = Some y.
Proof.
  unfold entries, own_props. destruct (h !! l) as [[m|xs]|].
  - apply elem_of_map_to_list.
  - unfold index_props. apply elem_of_list_to_map, array_entries_NoDup.
  - rewrite lookup_empty. split; [by intros ?%elem_of_nil | done].
Qed.

Lemma own_props_valid (h : heap) l k y :
  own_props h (VRef l) !! k = Some y → (l < length h)%nat.
Proof.
  unfold own_props. destruct (h !! l) eqn:Hl; [intros _; by eapply lookup_lt_Some|].
  by rewrite lookup_empty.
Qed.

(** ** Chains of open objects *)

Lemma chain_length h B ks : chain h B ks → length B = S (length ks).
Proof.
  induction 1 as [r|B a ks k b _ IH Hk]; [done|].
  rewrite length_app, IH, length_app. simpl. lia.
Qed.

Lemma path_snoc h r ks a k b :
  path h r ks a → own_props h (VRef a) !! k = Some (VRef b) → path h r (ks ++ [k]) b.
Proof.
  induction 1 as [r|r k0 a0 ks a Hk0 _ IH]; intros Hk; simpl.
  - econstructor; [done|constructor].
  - econstructor; [done|]. by apply IH.
Qed.

Lemma chain_path h B ks :
  chain h B ks →
  ∀ r i a, B !! 0 = Some r → B !! i = Some a → path h r (take i ks) a.
Proof.
  induction 1 as [r0|B a0 ks k b Hch IH Hk]; intros r i a Hr Hi.
  - destruct i; simplify_eq/=. constructor.
  - pose proof (chain_length _ _ _ Hch) as Hlen.
    assert ((B ++ [a0]) !! 0 = Some r) as Hr0.
    { rewrite lookup_app_l in Hr; [done|]. rewrite Hlen. lia. }
    destruct (decide (i < length (B ++ [a0]))%nat) as [Hlt|Hge].
    + rewrite lookup_app_l in Hi by done.
      rewrite take_app_le by lia. by apply IH.
    + assert (i = length (B ++ [a0])) as ->.
      { apply lookup_lt_Some in Hi. rewrite length_app in Hi. simpl in Hi. lia. }
      rewrite lookup_app_r, Nat.sub_diag in Hi by done. simplify_eq/=.
      rewrite take_ge by (rewrite length_app; simpl; lia).
      apply path_snoc with a0; [|done].
      specialize (IH r (length B) a0 Hr0).
      rewrite take_ge in IH by (rewrite length_app in Hlen; simpl in Hlen; lia).
      apply IH. by rewrite lookup_app_r, Nat.sub_diag.
Qed.

Lemma chain_reach h B ks :
  chain h B ks →
  ∀ i a l, B !! i = Some a → last B = Some l → rtc (edge h) a l.
Proof.
  induction 1 as [r0|B a0 ks k b Hch IH Hk]; intros i a l Hi Hl.
  - destruct i; simplify_eq/=. done.
  - rewrite last_snoc in Hl. simplify_eq.
    destruct (decide (i < length (B ++ [a0]))%nat) as [Hlt|Hge].
    + rewrite lookup_app_l in Hi by done.
      apply rtc_r with a0; [|by exists k].
      apply (IH i); [done|]. by rewrite last_snoc.
    + assert (i = length (B ++ [a0])) as ->.
      { apply lookup_lt_Some in Hi. rewrite length_app in Hi. simpl in Hi. lia. }
      rewrite lookup_app_r, Nat.sub_diag in Hi by done. by simplify_eq/=.
Qed.

(** ** A cut reference leaves its placeholder in the text *)

Lemma placeholder_circular i ks k :
  (i ≤ length ks)%nat → placeholder i (ks ++ [k]) = circular (take i ks).
Proof.
  intros Hi. destruct i as [|i]; [done|]. simpl placeholder.
  rewrite take_app_le by done.
  destruct ks as [|k0 ks]; [simpl in Hi; lia|]. done.
Qed.

Lemma unfold_cut (h : heap) n B ks l i :
  position l B = Some i →
  unfold h n B ks (VRef l) = Some (JStr (placeholder i ks)).
Proof. intros Hpos. destruct n; simpl; by rewrite Hpos. Qed.

Lemma unfold_enter (h : heap) n P ks l :
  position l P = None →
  unfold h (S n) P ks (VRef l) =
  let sub := map (fun e => (fst e, unfold h n (P ++ [l]) (ks ++ [fst e]) (snd e)))
                 (entries h l) in
  match h !! l with
  | Some (OArr _) => Some (JArr (array_items sub))
  | _ => Some (JObj (object_members sub))
  end.
Proof. intros Hpos. simpl. by rewrite Hpos. Qed.

Lemma unfold_member (h : heap) n P ks l k y t' p :
  position l P = None →
  own_props h (VRef l) !! k = Some y →
  unfold h n (P ++ [l]) (ks ++ [k]) y = Some t' →
  Str.occurs p (render t') →
  ∃ t, unfold h (S n) P ks (VRef l) = Some t ∧ Str.occurs p (render t).
Proof.
  intros Hpos Hk Hy Hp. rewrite unfold_enter by done. cbv zeta.
  apply entries_own_props in Hk.
  assert ((k, Some t') ∈ map (fun e => (fst e, unfold h n (P ++ [l]) (ks ++ [fst e]) (snd e)))
                             (entries h l)) as Hin.
  { apply list_elem_of_In.
    apply list_elem_of_In, (in_map (fun e => (fst e, unfold h n (P ++ [l]) (ks ++ [fst e]) (snd e)))) in Hk.
    simpl in Hk. by rewrite Hy in Hk. }
  destruct (h !! l) as [[m|xs]|].
  - eexists; split; [done|]. apply occurs_render_obj with k t'; [|done].
    unfold object_members. apply list_elem_of_omap. by exists (k, Some t').
  - eexists; split; [done|]. apply occurs_render_arr with t'; [|done].
    unfold array_items. apply list_elem_of_In.
    apply list_elem_of_In, (in_map (fun m => default JNull (snd m))) in Hin. done.
  - eexists; split; [done|]. apply occurs_render_obj with k t'; [|done].
    unfold object_members. apply list_elem_of_omap. by exists (k, Some t').
Qed.

Lemma unfold_marks_cycle h B l :
  hits h B l →
  ∀ n P ks r,
    B = P ++ [l] →
    NoDup B →
    (∀ a, a ∈ P → (a < length h)%nat) →
    (length h < n + length P)%nat →
    chain h B ks →
    B !! 0 = Some r →
    ∃ t ks' a,
      unfold h n P ks (VRef l) = Some t
      ∧ path h r ks' a
      ∧ tc (edge h) a a
      ∧ Str.occurs (Str.quote (circular ks')) (render t).
Proof.
  assert (∀ B l k a n P ks r,
    own_props h (VRef l) !! k = Some (VRef a) → a ∈ B →
    B = P ++ [l] → NoDup B → (∀ a, a ∈ P → (a < length h)%nat) →
    (length h < n + length P)%nat → chain h B ks → B !! 0 = Some r →
    ∃ t ks' a, unfold h n P ks (VRef l) = Some t ∧ path h r ks' a
      ∧ tc (edge h) a a ∧ Str.occurs (Str.quote (circular ks')) (render t)) as Hnow.
  { clear B l. intros B l k a n P ks r Hk Ha -> Hnd Hval Hfuel Hch Hr.
    assert (position l P = None) as HlP by by apply position_None, snoc_fresh.
    assert (length (P ++ [l]) ≤ length h)%nat as Hbound.
    { apply open_chain_bounded; [done|].
      intros b [Hb| ->%list_elem_of_singleton]%elem_of_app; [by apply Hval|].
      by eapply own_props_valid. }
    rewrite length_app in Hbound. simpl in Hbound.
    destruct n as [|n]; [lia|].
    destruct (position a (P ++ [l])) as [i|] eqn:Hpos.
    2:{ apply position_None in Hpos. done. }
    pose proof (position_Some _ _ _ Hpos) as Hi.
    pose proof (chain_length _ _ _ Hch) as Hlen.
    rewrite length_app in Hlen. simpl in Hlen.
    assert (i ≤ length ks)%nat as Hile.
    { apply lookup_lt_Some in Hi. rewrite length_app in Hi. simpl in Hi. lia. }
    destruct (unfold_member h n P ks l k (VRef a)
                (JStr (placeholder i (ks ++ [k])))
                (Str.quote (placeholder i (ks ++ [k])))) as (t & Ht & Hocc); try done.
    - by apply unfold_cut.
    - apply occurs_refl.
    - exists t, (take i ks), a. split; [done|]. split; [by eapply chain_path|].
      split; [|by rewrite <- (placeholder_circular i ks k)].
      eapply tc_rtc_l; [|apply tc_once; by exists k].
      eapply chain_reach; [done..|]. by rewrite last_snoc. }
  induction 1 as [B l k a Hk Ha|B l k a Hk Hhits IH];
    intros n P ks r HB Hnd Hval Hfuel Hch Hr; [by eapply Hnow|].
  destruct (decide (a ∈ B)) as [Ha|Ha]; [by eapply Hnow|].
  subst B.
  assert (position l P = None) as HlP by by apply position_None, snoc_fresh.
  assert (∀ b, b ∈ P ++ [l] → (b < length h)%nat) as Hval'.
  { intros b [Hb| ->%list_elem_of_singleton]%elem_of_app; [by apply Hval|].
    by eapply own_props_valid. }
  pose proof (open_chain_bounded h _ Hnd Hval') as Hbound.
  rewrite length_app in Hbound. simpl in Hbound.
  destruct n as [|n]; [lia|].
  destruct (IH n (P ++ [l]) (ks ++ [k]) r) as (t' & ks' & c & Ht' & Hpath & Hcyc & Hocc);
    try done.
  - by apply NoDup_snoc_fresh.
  - rewrite length_app. simpl. lia.
  - by constructor.
  - rewrite lookup_app_l; [done|]. rewrite length_app. simpl. lia.
  - destruct (unfold_member h n P ks l k (VRef a) t' (Str.quote (circular ks')))
      as (t & Ht & Hocc'); try done.
    by exists t, ks', c.
Qed.

(** ** Reference cycles are met by the traversal *)



Lemma clone_text_None (h : heap) v : clone_text h v = None ↔ ¬ has_json v.
Proof.
  unfold clone_text. destruct v as [| |b|z|s|l|k f]; simpl; try naive_solver.
  destruct (h !! l) as [[m|xs]|]; naive_solver.
Qed.

Lemma clone_text_Some (h : heap) v : has_json v → is_Some (clone_text h v).
Proof.
  intros Hv. destruct (clone_text h v) eqn:E; [done|].
  by apply clone_text_None in E.
Qed.

(** ** The steps of [update] *)

Lemma snapshot_run v w :
  snapshot v w =
  match clone_text (heap_of w) v with
  | Some t => Ok (ArgParsed t) w
  | None => Throw SyntaxError w
  end.
Proof.
  unfold snapshot. destruct (JSON_stringify_serializer (heap_of w) v) as (st & ->).
  unfold clone_text. by destruct (unfold _ _ _ _ _).
Qed.

Lemma store_set_ref store l w :
  store_set store (VRef l) w = Ok tt (publish store (VRef l) w).
Proof.
  unfold store_set, modify, publish.
  assert (safe_not_equal (cur (stores w !!! store)) (VRef l) = true) as ->; [|done].
  unfold safe_not_equal, strict_eq. destruct (cur _); try done.
Qed.

Lemma update_run call store action w :
  let prev := cur (stores w !!! store) in
  update call store action w =
  match (if enabled w then snapshot prev w else Ok (ArgVal VUndef) w) with
  | Throw e w' => Throw e w'
  | Ok ps _ =>
      match eval_action call action prev w with
      | Throw e w1 => Throw e w1
      | Ok result w1 =>
          let ns := VRef (length (heap_of w1)) in
          let w2 := set_heap (heap_of w1 ++ [OObj (spread (heap_of w1) prev result)]) w1 in
          if enabled w1
          then match caller_frame (err_stack w1) with
               | Some (functionName, functionLink) =>
                   Ok tt (publish store ns
                            (set_console
                               (console w1 ++ report functionName functionLink result ps ns) w2))
               | None => Throw TypeError w2
               end
          else Ok tt (publish store ns w2)
      end
  end.
Proof.
  intros prev. unfold update, bind, get, reads. fold prev.
  assert (∀ ps (m : outcome value),
    match m with
    | Ok a0 w'0 =>
        match new_object (fun h => spread h prev a0) w'0 with
        | Ok a1 w'1 =>
            match
              (if enabled w'1
               then fun w0 =>
                 match split_value (item (Str.split "at " (err_stack w0)) 4) " " w0 with
                 | Ok a2 w'2 => log (item a2 0) (item a2 1) a0 ps a1 w'2
                 | Throw e w'2 => Throw e w'2
                 end
               else ret tt) w'1
            with
            | Ok _ w'2 => store_set store a1 w'2
            | Throw e w'2 => Throw e w'2
            end
        | Throw e w'1 => Throw e w'1
        end
    | Throw e w'0 => Throw e w'0
    end =
    match m with
    | Throw e w1 => Throw e w1
    | Ok result w1 =>
        let ns := VRef (length (heap_of w1)) in
        let w2 := set_heap (heap_of w1 ++ [OObj (spread (heap_of w1) prev result)]) w1 in
        if enabled w1
        then match caller_frame (err_stack w1) with
             | Some (functionName, functionLink) =>
                 Ok tt (publish store ns
                          (set_console
                             (console w1 ++ report functionName functionLink result ps ns) w2))
             | None => Throw TypeError w2
             end
        else Ok tt (publish store ns w2)
    end) as Hrest.
  { intros ps [result w1|e w1]; [|done].
    unfold new_object, alloc. cbv zeta.
    set (w2 := set_heap (heap_of w1 ++ [OObj (spread (heap_of w1) prev result)]) w1).
    change (enabled w2) with (enabled w1).
    destruct (enabled w1) eqn:Hen.
    - cbv beta. change (err_stack w2) with (err_stack w1).
      unfold caller_frame, split_value, item at 1.
      destruct (Str.split "at " (err_stack w1) !! 4) as [frame|]; [|done].
      unfold ret, log, emit, modify, bind. rewrite store_set_ref.
      unfold report, publish, set_console. simpl. by rewrite <- !app_assoc.
    - unfold ret. by rewrite store_set_ref. }
  unfold eval_action.
  destruct (enabled w).
  - rewrite snapshot_run. destruct (clone_text (heap_of w) prev) as [t|]; [|done].
    destruct (isFunction (heap_of w) action);
      [exact (Hrest _ (apply_action call action prev w)) | exact (Hrest _ (Ok action w))].
  - change (ret (ArgVal VUndef) w) with (Ok (ArgVal VUndef) w). cbv iota beta.
    destruct (isFunction (heap_of w) action);
      [exact (Hrest (ArgVal VUndef) (apply_action call action prev w))
      |exact (Hrest (ArgVal VUndef) (Ok action w))].
Qed.

(** * The serializer is cycle safe *)

Example stringify_self_reference :
  ∃ st, JSON_stringify (serializer None None) self_heap (VRef 0) serializer_init
        = SOk (Some (JObj [("self", JStr "[Circular ~]")])) st.
Proof. eexists. vm_compute. reflexivity. Qed.

Example stringify_nested_reference :
  ∃ st, JSON_stringify (serializer None None) nested_heap (VRef 0) serializer_init
        = SOk (Some (JObj [("a", JObj [("b", JStr "[Circular ~.a]")])])) st.
Proof. eexists. vm_compute. reflexivity. Qed.

Example stringify_undefined :
  ∃ st, JSON_stringify (serializer None None) [] VUndef serializer_init = SOk None st.
Proof. eexists. reflexivity. Qed.

Lemma self_heap_cyclic : cyclic self_heap (VRef 0).
Proof.
  exists 0, 0. split; [done|]. split; [done|].
  apply tc_once. exists "self". vm_compute. reflexivity.
Defined.

(** * The update orchestrator *)

Lemma own_props_alloc (h : heap) m : own_props (h ++ [OObj m]) (VRef (length h)) = m.
Proof. unfold own_props. by rewrite lookup_app_r, Nat.sub_diag. Qed.

Lemma publish_lookup store ns w :
  stores (publish store ns w) !!! store = Cell ns (published (stores w !!! store) ++ [ns]).
Proof. unfold publish. simpl. by rewrite lookup_total_insert_eq. Qed.

Lemma eval_action_partial call action prev w :
  isFunction (heap_of w) action = false → eval_action call action prev w = Ok action w.
Proof. intros H. unfold eval_action. by rewrite H. Qed.

Lemma eval_action_function call f prev w :
  eval_action call (VFun PlainFun f) prev w = call f prev w.
Proof. reflexivity. Qed.

Lemma isFunction_heap (h h' : heap) v : isFunction h v = isFunction h' v.
Proof.
  unfold isFunction. destruct v as [| |b|z|s|l|k f]; try done.
  simpl. by destruct (h !! l) as [[]|], (h' !! l) as [[]|].
Qed.

Lemma isFunction_not_fun (h : heap) v :
  (∀ k f, v ≠ VFun k f) → isFunction h v = false.
Proof.
  intros Hv. unfold isFunction.
  destruct v as [| |b|z|s|l|k f]; try done; simpl.
  - apply andb_false_r.
  - apply andb_false_r.
  - apply andb_false_r.
  - by destruct (h !! l) as [[]|].
  - by destruct (Hv k f).
Qed.

(** What a completed [update] did, step by step. *)
Lemma update_ok_inv call store action w w' :
  update call store action w = Ok tt w' →
  let prev := cur (stores w !!! store) in
  ∃ ps partial w1,
    let ns := VRef (length (heap_of w1)) in
    (if enabled w
     then ∃ t, clone_text (heap_of w) prev = Some t ∧ ps = ArgParsed t
     else ps = ArgVal VUndef)
    ∧ eval_action call action prev w = Ok partial w1
    ∧ heap_of w' = heap_of w1 ++ [OObj (spread (heap_of w1) prev partial)]
    ∧ stores w' = <[store := Cell ns (published (stores w1 !!! store) ++ [ns])]> (stores w1)
    ∧ enabled w' = enabled w1
    ∧ err_stack w' = err_stack w1
    ∧ (if enabled w1
       then ∃ functionName functionLink,
              caller_frame (err_stack w1) = Some (functionName, functionLink)
              ∧ console w' = console w1 ++ report functionName functionLink partial ps ns
       else console w' = console w1).
Proof.
  intros Hrun prev. rewrite update_run in Hrun. fold prev in Hrun.
  assert (∃ ps,
    (if enabled w then snapshot prev w else Ok (ArgVal VUndef) w) = Ok ps w
    ∧ (if enabled w
       then ∃ t, clone_text (heap_of w) prev = Some t ∧ ps = ArgParsed t
       else ps = ArgVal VUndef)) as (ps & Hps & Hps').
  { destruct (enabled w); [|by eexists].
    rewrite snapshot_run in *. destruct (clone_text (heap_of w) prev) as [t|]; [|done].
    eexists; split; [done|]. by exists t. }
  rewrite Hps in Hrun.
  destruct (eval_action call action prev w) as [partial w1|e w1]; [|done].
  exists ps, partial, w1. cbv zeta in *. split; [done|]. split; [done|].
  destruct (enabled w1) eqn:Hen.
  - destruct (caller_frame (err_stack w1)) as [[functionName functionLink]|]; [|done].
    injection Hrun as <-. repeat split; try done. by eexists _, _.
  - injection Hrun as <-. by repeat split.
Qed.

(** With logging off before and after the action, [update] completes. *)
Lemma update_completes_disabled call store action w partial w1 :
  eval_action call action (cur (stores w !!! store)) w = Ok partial w1 →
  enabled w = false → enabled w1 = false →
  ∃ w', update call store action w = Ok tt w'.
Proof.
  intros Hact Hen Hen1. rewrite update_run, Hen, Hact. cbv zeta. rewrite Hen1.
  by eexists.
Qed.

(** C1. Whenever [update] publishes, what the base container receives is a
    fresh object whose properties are the shallow merge of the previous state
    with the partial, where the partial is the action itself or, for a
    function action, the value it returns on the previous state: every
    property of the partial is there with the partial's value, every other
    property is as in the previous state.  (Properties are read at the moment
    of the merge, after the action ran.)  And [update] does publish whenever
    logging is off and the action returns. *)
Theorem update_publishes_shallow_merge call store action w :
  let prev := cur (stores w !!! store) in
  (∀ partial w1,
     eval_action call action prev w = Ok partial w1 →
     enabled w = false → enabled w1 = false →
     ∃ w', update call store action w = Ok tt w')
  ∧
  (∀ w', update call store action w = Ok tt w' →
     ∃ partial w1 ns,
       eval_action call action prev w = Ok partial w1
       ∧ cur (stores w' !!! store) = ns
       ∧ published (stores w' !!! store) = published (stores w1 !!! store) ++ [ns]
       ∧ own_props (heap_of w') ns
         = own_props (heap_of w1) partial ∪ own_props (heap_of w1) prev
       ∧ (∀ k x, own_props (heap_of w1) partial !! k = Some x →
                 own_props (heap_of w') ns !! k = Some x)
       ∧ (∀ k, own_props (heap_of w1) partial !! k = None →
               own_props (heap_of w') ns !! k = own_props (heap_of w1) prev !! k)).
Proof.
  intros prev. split; [apply update_completes_disabled|].
  intros w' Hrun.
  destruct (update_ok_inv _ _ _ _ _ Hrun)
    as (ps & partial & w1 & _ & Hact & Hheap & Hstores & _).
  exists partial, w1, (VRef (length (heap_of w1))).
  assert (own_props (heap_of w') (VRef (length (heap_of w1)))
          = own_props (heap_of w1) partial ∪ own_props (heap_of w1) prev) as Hprops.
  { rewrite Hheap. by rewrite own_props_alloc. }
  rewrite Hstores, lookup_total_insert_eq. cbn [cur published].
  repeat split; try done.
  - intros k x Hk. rewrite Hprops. by apply lookup_union_Some_l.
  - intros k Hk. rewrite Hprops. by apply lookup_union_r.
Qed.

Lemma update_publishes_shallow_merge_witness :
  update no_call 0 (VRef 1) (messages_world false shallow_trace)
    = Ok tt (publish 0 (VRef 2)
               (set_heap (messages_heap ++ [OObj {[ "message" := VStr "world" ]}])
                  (messages_world false shallow_trace)))
  ∧ ∃ partial w1 ns,
      eval_action no_call (VRef 1) (VRef 0) (messages_world false shallow_trace) = Ok partial w1
      ∧ ns = VRef 2
      ∧ own_props (messages_heap ++ [OObj {[ "message" := VStr "world" ]}]) ns
        = own_props (heap_of w1) partial ∪ own_props (heap_of w1) (VRef 0).
Proof.
  assert (update no_call 0 (VRef 1) (messages_world false shallow_trace)
    = Ok tt (publish 0 (VRef 2)
               (set_heap (messages_heap ++ [OObj {[ "message" := VStr "world" ]}])
                  (messages_world false shallow_trace)))) as Hrun.
  { vm_compute. reflexivity. }
  split; [exact Hrun|].
  destruct (proj2 (update_publishes_shallow_merge no_call 0 (VRef 1)
                     (messages_world false shallow_trace)) _ Hrun)
    as (partial & w1 & ns & Hact & Hcur & _ & Hprops & _).
  exists partial, w1, ns. split; [exact Hact|]. split; [|exact Hprops].
  rewrite <- Hcur. vm_compute. reflexivity.
Defined.

(** * The merge decorator *)

Lemma merge_run store p w :
  merge store p w =
  Ok tt (publish store (VRef (length (heap_of w)))
           (set_heap (heap_of w ++ [OObj (spread (heap_of w) (cur (stores w !!! store)) p)]) w)).
Proof.
  unfold merge, bind, get, reads, new_object, alloc. cbv zeta.
  by rewrite store_set_ref.
Qed.

(** C6. [merge(partial)] always completes; it hands the base container's
    [set] a fresh object whose properties are the shallow merge of the
    current state with the partial, and leaves the console and the logging
    flag untouched, whatever the flag is. *)
Theorem merge_publishes_without_logging store p w :
  ∃ w' ns,
    merge store p w = Ok tt w'
    ∧ cur (stores w' !!! store) = ns
    ∧ published (stores w' !!! store) = published (stores w !!! store) ++ [ns]
    ∧ own_props (heap_of w') ns
      = own_props (heap_of w) p ∪ own_props (heap_of w) (cur (stores w !!! store))
    ∧ console w' = console w
    ∧ enabled w' = enabled w.
Proof.
  eexists _, (VRef (length (heap_of w))). split; [apply merge_run|].
  rewrite publish_lookup. cbn [cur published].
  repeat split; try done.
  unfold publish. cbn [heap_of set_stores set_heap]. by rewrite own_props_alloc.
Qed.

Lemma merge_publishes_without_logging_witness :
  ∃ w' ns,
    merge 0 (VRef 1) (messages_world true deep_trace) = Ok tt w'
    ∧ cur (stores w' !!! 0) = ns
    ∧ published (stores w' !!! 0)
      = published (stores (messages_world true deep_trace) !!! 0) ++ [ns]
    ∧ own_props (heap_of w') ns
      = own_props messages_heap (VRef 1)
        ∪ own_props messages_heap (cur (stores (messages_world true deep_trace) !!! 0))
    ∧ console w' = []
    ∧ enabled w' = true.
Proof. exact (merge_publishes_without_logging 0 (VRef 1) (messages_world true deep_trace)). Defined.

(** * Algebra of the shallow merge *)

Lemma own_props_grow (h : heap) m v :
  own_props (h ++ [OObj m]) v =
  if decide (v = VRef (length h)) then m else own_props h v.
Proof.
  case_decide as Hv; [subst; apply own_props_alloc|].
  destruct v as [| |b|z|s|l|k f]; try done.
  unfold own_props. destruct (decide (l < length h)%nat) as [Hlt|Hge].
  - by rewrite lookup_app_l.
  - assert (l ≠ length h) by congruence.
    rewrite lookup_app_r by lia.
    rewrite (lookup_ge_None_2 h l) by lia.
    destruct (l - length h)%nat as [|j] eqn:E; [lia|]. done.
Qed.

(** Merging [p] into the result of merging [p] into [prev] changes nothing. *)
Lemma spread_idempotent (h : heap) prev p :
  spread (h ++ [OObj (spread h prev p)]) (VRef (length h)) p = spread h prev p.
Proof.
  unfold spread at 1. rewrite own_props_alloc, own_props_grow.
  case_decide.
  - apply (idemp_L (∪)).
  - unfold spread. by rewrite (assoc_L (∪)), (idemp_L (∪)).
Qed.

(** C8. Applying the same partial twice gives the state applying it once
    gives: after [merge(p); merge(p)] the published object has the
    properties the object published by the first [merge(p)] has, and the
    same holds for two completed [update]s with the partial [p]. *)
Theorem merge_twice_same_state :
  (∀ store p w,
     ∃ w1 w2,
       merge store p w = Ok tt w1 ∧ merge store p w1 = Ok tt w2
       ∧ own_props (heap_of w2) (cur (stores w2 !!! store))
         = own_props (heap_of w1) (cur (stores w1 !!! store)))
  ∧ (∀ call store p w w1 w2,
       isFunction (heap_of w) p = false →
       update call store p w = Ok tt w1 →
       update call store p w1 = Ok tt w2 →
       own_props (heap_of w2) (cur (stores w2 !!! store))
       = own_props (heap_of w1) (cur (stores w1 !!! store))).
Proof.
  split.
  - intros store p w. eexists _, _. split; [apply merge_run|]. split; [apply merge_run|].
    rewrite !publish_lookup. cbn [cur heap_of publish set_stores set_heap].
    rewrite !own_props_alloc. apply spread_idempotent.
  - intros call store p w w1 w2 Hp Hrun1 Hrun2.
    destruct (update_ok_inv _ _ _ _ _ Hrun1)
      as (ps1 & q1 & u1 & _ & Hact1 & Hheap1 & Hstores1 & _).
    rewrite eval_action_partial in Hact1 by done. injection Hact1 as <- <-.
    destruct (update_ok_inv _ _ _ _ _ Hrun2)
      as (ps2 & q2 & u2 & _ & Hact2 & Hheap2 & Hstores2 & _).
    rewrite eval_action_partial in Hact2
      by (by rewrite (isFunction_heap _ (heap_of w))).
    injection Hact2 as <- <-.
    rewrite Hstores2, Hstores1, !lookup_total_insert_eq in *. cbn [cur] in *.
    rewrite Hheap2, Hheap1, !own_props_alloc. apply spread_idempotent.
Qed.

Lemma merge_twice_same_state_witness :
  isFunction messages_heap (VRef 1) = false
  ∧ (∃ w1 w2,
       update no_call 0 (VRef 1) (messages_world true deep_trace) = Ok tt w1
       ∧ update no_call 0 (VRef 1) w1 = Ok tt w2
       ∧ own_props (heap_of w2) (cur (stores w2 !!! 0))
         = own_props (heap_of w1) (cur (stores w1 !!! 0))).
Proof.
  split; [reflexivity|].
  eexists _, _.
  split; [vm_compute; reflexivity|]. split; [vm_compute; reflexivity|].
  apply (proj2 merge_twice_same_state no_call 0 (VRef 1) (messages_world true deep_trace));
    [reflexivity | vm_compute; reflexivity | vm_compute; reflexivity].
Defined.

(** * The logging decorator *)

Lemma loggable_methods call store w lw w' :
  loggableFunction call store w = Ok lw w' →
  w_set lw = update call (w_store lw) ∧ w_update lw = update call (w_store lw).
Proof.
  unfold loggableFunction, bind, ret. destruct store as [s|]; simpl.
  - by intros [= <- <-].
  - by intros [= <- <-].
Qed.

Lemma loggable_returns call store w :
  ∃ lw w', loggableFunction call store w = Ok lw w'.
Proof. destruct store; by eexists _, _. Qed.

(** C5. The container [loggableFunction] returns has [set(value)] equal to
    [update(value)]: both are the orchestrator applied to the value.  From
    the state [{message: 'hello'}], a completed [set({message: 'world'})]
    publishes an object whose properties are exactly [{message: 'world'}]. *)
Theorem set_is_update_of_value call :
  (∀ store w, ∃ lw w',
     loggableFunction call store w = Ok lw w'
     ∧ ∀ v, w_set lw v = w_update lw v ∧ w_set lw v = update call (w_store lw) v)
  ∧ (∀ store w0 lw w l0 v w',
       loggableFunction call store w0 = Ok lw w →
       cur (stores w !!! w_store lw) = VRef l0 →
       own_props (heap_of w) (VRef l0) = {[ "message" := VStr "hello" ]} →
       own_props (heap_of w) v = {[ "message" := VStr "world" ]} →
       w_set lw v w = Ok tt w' →
       own_props (heap_of w') (cur (stores w' !!! w_store lw))
       = {[ "message" := VStr "world" ]}
       ∧ published (stores w' !!! w_store lw)
         = published (stores w !!! w_store lw) ++ [cur (stores w' !!! w_store lw)]).
Proof.
  split.
  - intros store w. destruct (loggable_returns call store w) as (lw & w' & Hlw).
    exists lw, w'. split; [done|]. intros v.
    destruct (loggable_methods _ _ _ _ _ Hlw) as [-> ->]. done.
  - intros store w0 lw w l0 v w' Hlw Hcur Hprev Hv Hrun.
    destruct (loggable_methods _ _ _ _ _ Hlw) as [Hset _]. rewrite Hset in Hrun.
    assert (isFunction (heap_of w) v = false) as Hnf.
    { apply isFunction_not_fun. intros k f ->.
      simpl in Hv. apply (f_equal (lookup "message")) in Hv.
      by rewrite lookup_empty, lookup_singleton_eq in Hv. }
    destruct (update_ok_inv _ _ _ _ _ Hrun)
      as (ps & q & u & _ & Hact & Hheap & Hstores & _).
    rewrite eval_action_partial in Hact by done. injection Hact as <- <-.
    rewrite Hstores, lookup_total_insert_eq, Hheap. cbn [cur published].
    rewrite own_props_alloc. split; [|done].
    unfold spread. rewrite Hcur, Hprev, Hv.
    apply map_eq. intros k. rewrite lookup_union.
    destruct (decide (k = "message")) as [->|Hk].
    + by rewrite !lookup_singleton_eq.
    + by rewrite !lookup_singleton_ne.
Qed.

Lemma set_is_update_of_value_witness :
  ∃ lw w',
    loggableFunction no_call (Some 0) (messages_world true deep_trace)
      = Ok lw (messages_world true deep_trace)
    ∧ w_set lw (VRef 1) (messages_world true deep_trace) = Ok tt w'
    ∧ own_props (heap_of w') (cur (stores w' !!! w_store lw))
      = {[ "message" := VStr "world" ]}.
Proof.
  eexists _, _. split; [reflexivity|]. split; [vm_compute; reflexivity|].
  refine (proj1 (proj2 (set_is_update_of_value no_call) (Some 0)
            (messages_world true deep_trace) _ (messages_world true deep_trace)
            0 (VRef 1) _ eq_refl _ _ _ _)).
  - vm_compute. reflexivity.
  - vm_compute. reflexivity.
  - vm_compute. reflexivity.
  - vm_compute. reflexivity.
Defined.

(** * Keys are never lost *)

(** C9. A completed [set] or [update] of a logged container and a [merge]
    of a mergeable container publish an object that has every property key
    the previous state has (at the moment of the merge). *)
Theorem operations_preserve_keys call :
  (∀ store w0 lw w0' x w w',
     loggableFunction call store w0 = Ok lw w0' →
     w_set lw x w = Ok tt w' ∨ w_update lw x w = Ok tt w' →
     ∃ partial w1,
       eval_action call x (cur (stores w !!! w_store lw)) w = Ok partial w1
       ∧ dom (own_props (heap_of w1) (cur (stores w !!! w_store lw)))
         ⊆ dom (own_props (heap_of w') (cur (stores w' !!! w_store lw))))
  ∧ (∀ store p w, ∃ w',
       merge store p w = Ok tt w'
       ∧ dom (own_props (heap_of w) (cur (stores w !!! store)))
         ⊆ dom (own_props (heap_of w') (cur (stores w' !!! store)))).
Proof.
  split.
  - intros store w0 lw w0' x w w' Hlw Hrun.
    destruct (loggable_methods _ _ _ _ _ Hlw) as [Hset Hupd].
    rewrite Hset, Hupd in Hrun.
    assert (update call (w_store lw) x w = Ok tt w') as Hrun' by by destruct Hrun.
    destruct (update_ok_inv _ _ _ _ _ Hrun')
      as (ps & partial & w1 & _ & Hact & Hheap & Hstores & _).
    exists partial, w1. split; [done|].
    rewrite Hstores, lookup_total_insert_eq, Hheap. cbn [cur].
    rewrite own_props_alloc. unfold spread. rewrite dom_union_L.
    apply union_subseteq_r.
  - intros store p w. eexists. split; [apply merge_run|].
    rewrite publish_lookup. cbn [cur heap_of publish set_stores set_heap].
    rewrite own_props_alloc. unfold spread. rewrite dom_union_L.
    apply union_subseteq_r.
Qed.

Lemma operations_preserve_keys_witness :
  ∃ lw w',
    loggableFunction no_call (Some 0) (messages_world true deep_trace)
      = Ok lw (messages_world true deep_trace)
    ∧ w_update lw (VRef 1) (messages_world true deep_trace) = Ok tt w'
    ∧ ∃ partial w1,
        eval_action no_call (VRef 1)
          (cur (stores (messages_world true deep_trace) !!! w_store lw))
          (messages_world true deep_trace) = Ok partial w1
        ∧ dom (own_props (heap_of w1)
                 (cur (stores (messages_world true deep_trace) !!! w_store lw)))
          ⊆ dom (own_props (heap_of w') (cur (stores w' !!! w_store lw))).
Proof.
  eexists _, _. split; [reflexivity|]. split; [vm_compute; reflexivity|].
  refine (proj1 (operations_preserve_keys no_call) (Some 0)
            (messages_world true deep_trace) _ (messages_world true deep_trace)
            (VRef 1) (messages_world true deep_trace) _ eq_refl (or_intror _)).
  vm_compute. reflexivity.
Defined.

(** * The console report *)

(** A logged [update] that gets past the snapshot and the stack text. *)
Lemma update_logged_run call store action w ps partial w1 frame :
  let prev := cur (stores w !!! store) in
  let ns := VRef (length (heap_of w1)) in
  (if enabled w then snapshot prev w else Ok (ArgVal VUndef) w) = Ok ps w →
  eval_action call action prev w = Ok partial w1 →
  enabled w1 = true →
  Str.split "at " (err_stack w1) !! 4 = Some frame →
  update call store action w =
  Ok tt (publish store ns
           (set_console
              (console w1 ++ report (item (Str.split " " frame) 0)
                                    (item (Str.split " " frame) 1) partial ps ns)
              (set_heap (heap_of w1 ++ [OObj (spread (heap_of w1) prev partial)]) w1))).
Proof.
  intros prev ns Hps Hact Hen1 Hframe.
  rewrite update_run. fold prev. rewrite Hps, Hact. cbv zeta. rewrite Hen1.
  unfold caller_frame. by rewrite Hframe.
Qed.

(** C7. With logging on before and after the action, a state that has a
    JSON text and a stack text of at least five ['at ']-separated entries,
    [update] completes and appends to the console exactly: a collapsed group
    titled by the caller's function name, the applied partial and the
    caller's source location (the first two words of the fifth entry); the
    line ['PREV STATE'] with the serializer's clone of the previous state;
    the line ['NEXT STATE'] with the published next state; a trace; the end
    of the group. *)
Theorem update_console_report call store action w partial w1 frame :
  let prev := cur (stores w !!! store) in
  enabled w = true →
  has_json prev →
  eval_action call action prev w = Ok partial w1 →
  enabled w1 = true →
  Str.split "at " (err_stack w1) !! 4 = Some frame →
  ∃ w' t st,
    update call store action w = Ok tt w'
    ∧ JSON_stringify (serializer None None) (heap_of w) prev serializer_init = SOk (Some t) st
    ∧ console w' = console w1 ++
        [ GroupCollapsed [ ArgVal (item (Str.split " " frame) 0);
                           ArgVal partial;
                           ArgVal (item (Str.split " " frame) 1) ];
          Log [ArgVal (VStr "PREV STATE"); ArgParsed t];
          Log [ArgVal (VStr "NEXT STATE"); ArgVal (cur (stores w' !!! store))];
          Trace;
          GroupEnd ]
    ∧ own_props (heap_of w') (cur (stores w' !!! store))
      = own_props (heap_of w1) partial ∪ own_props (heap_of w1) prev.
Proof.
  intros prev Hen Hjson Hact Hen1 Hframe.
  destruct (clone_text_Some (heap_of w) prev Hjson) as [t Ht].
  destruct (JSON_stringify_serializer (heap_of w) prev) as (st & Hst).
  fold (clone_text (heap_of w) prev) in Hst. rewrite Ht in Hst.
  eexists _, t, st. split.
  { eapply update_logged_run; [|done..]. rewrite Hen, snapshot_run. fold prev.
    by rewrite Ht. }
  split; [done|].
  rewrite publish_lookup. cbn [cur]. split; [done|].
  unfold publish. cbn [heap_of set_stores set_console set_heap].
  by rewrite own_props_alloc.
Qed.

Lemma update_console_report_witness :
  enabled (messages_world true deep_trace) = true
  ∧ has_json (VRef 0)
  ∧ eval_action no_call (VRef 1) (VRef 0) (messages_world true deep_trace)
    = Ok (VRef 1) (messages_world true deep_trace)
  ∧ Str.split "at " deep_trace !! 4
    = Some "HTMLButtonElement.click_handler (App.svelte:30:5)"
  ∧ ∃ w' t st,
      update no_call 0 (VRef 1) (messages_world true deep_trace) = Ok tt w'
      ∧ JSON_stringify (serializer None None) messages_heap (VRef 0) serializer_init
        = SOk (Some t) st
      ∧ console w' = [] ++
          [ GroupCollapsed [ ArgVal (item (Str.split " " "HTMLButtonElement.click_handler (App.svelte:30:5)") 0);
                             ArgVal (VRef 1);
                             ArgVal (item (Str.split " " "HTMLButtonElement.click_handler (App.svelte:30:5)") 1) ];
            Log [ArgVal (VStr "PREV STATE"); ArgParsed t];
            Log [ArgVal (VStr "NEXT STATE"); ArgVal (cur (stores w' !!! 0))];
            Trace;
            GroupEnd ]
      ∧ own_props (heap_of w') (cur (stores w' !!! 0))
        = own_props messages_heap (VRef 1) ∪ own_props messages_heap (VRef 0).
Proof.
  split; [reflexivity|]. split; [exact I|]. split; [reflexivity|].
  split; [vm_compute; reflexivity|].
  apply (update_console_report no_call 0 (VRef 1) (messages_world true deep_trace)
           (VRef 1) (messages_world true deep_trace)
           "HTMLButtonElement.click_handler (App.svelte:30:5)").
  - reflexivity.
  - exact I.
  - reflexivity.
  - reflexivity.
  - vm_compute. reflexivity.
Defined.

(** C10. [update] reads the flag once before the action and once after it.
    When the action turns the flag on, the report is emitted with
    [undefined] as its ['PREV STATE'] value; when the action turns the flag
    off, the previous state is still serialized (a state without a JSON text
    makes the call throw) but the console receives nothing. *)
Theorem update_reads_flag_twice call store action w partial w1 :
  let prev := cur (stores w !!! store) in
  eval_action call action prev w = Ok partial w1 →
  (enabled w = false → enabled w1 = true →
   ∀ frame, Str.split "at " (err_stack w1) !! 4 = Some frame →
     ∃ w', update call store action w = Ok tt w'
           ∧ console w' = console w1 ++
               report (item (Str.split " " frame) 0) (item (Str.split " " frame) 1)
                      partial (ArgVal VUndef) (cur (stores w' !!! store)))
  ∧ (enabled w = true → enabled w1 = false →
     (has_json prev →
        ∃ w', update call store action w = Ok tt w' ∧ console w' = console w1)
     ∧ (¬ has_json prev → update call store action w = Throw SyntaxError w)).
Proof.
  intros prev Hact. split.
  - intros Hen Hen1 frame Hframe. eexists. split.
    { eapply update_logged_run; [|done..]. by rewrite Hen. }
    by rewrite publish_lookup.
  - intros Hen Hen1. split.
    + intros Hjson. destruct (clone_text_Some (heap_of w) prev Hjson) as [t Ht].
      rewrite update_run. fold prev. rewrite Hen, snapshot_run, Ht, Hact.
      cbv zeta. rewrite Hen1. by eexists.
    + intros Hjson. apply (proj2 (clone_text_None (heap_of w) prev)) in Hjson.
      rewrite update_run. fold prev. by rewrite Hen, snapshot_run, Hjson.
Qed.

Lemma update_reads_flag_twice_witness :
  eval_action toggling_call (VFun PlainFun 0) (VRef 0) (messages_world false deep_trace)
    = Ok (VRef 1) (messages_world true deep_trace)
  ∧ eval_action toggling_call (VFun PlainFun 0) (VRef 0) (messages_world true deep_trace)
    = Ok (VRef 1) (messages_world false deep_trace)
  ∧ (∃ w', update toggling_call 0 (VFun PlainFun 0) (messages_world false deep_trace) = Ok tt w'
           ∧ console w' = [] ++
               report (VStr "HTMLButtonElement.click_handler") (VStr "(App.svelte:30:5)")
                      (VRef 1) (ArgVal VUndef) (cur (stores w' !!! 0)))
  ∧ (∃ w', update toggling_call 0 (VFun PlainFun 0) (messages_world true deep_trace) = Ok tt w'
           ∧ console w' = []).
Proof.
  split; [reflexivity|]. split; [reflexivity|]. split.
  - apply (proj1 (update_reads_flag_twice toggling_call 0 (VFun PlainFun 0)
                    (messages_world false deep_trace) (VRef 1)
                    (messages_world true deep_trace) eq_refl) eq_refl eq_refl
             "HTMLButtonElement.click_handler (App.svelte:30:5)").
    vm_compute. reflexivity.
  - apply (proj1 (proj2 (update_reads_flag_twice toggling_call 0 (VFun PlainFun 0)
                    (messages_world true deep_trace) (VRef 1)
                    (messages_world false deep_trace) eq_refl) eq_refl eq_refl)).
    exact I.
Defined.

(** * Failures of the logging path *)

Lemma update_throws_on_short_stack call store action w partial w1 :
  let prev := cur (stores w !!! store) in
  (enabled w = true → has_json prev) →
  eval_action call action prev w = Ok partial w1 →
  enabled w1 = true →
  Str.split "at " (err_stack w1) !! 4 = None →
  update call store action w
  = Throw TypeError
      (set_heap (heap_of w1 ++ [OObj (spread (heap_of w1) prev partial)]) w1).
Proof.
  intros prev Hjson Hact Hen1 Hframe.
  rewrite update_run. fold prev.
  assert (∃ ps, (if enabled w then snapshot prev w else Ok (ArgVal VUndef) w) = Ok ps w)
    as [ps ->].
  { destruct (enabled w); [|by eexists].
    destruct (clone_text_Some (heap_of w) prev (Hjson eq_refl)) as [t Ht].
    rewrite snapshot_run. fold prev. rewrite Ht. by eexists. }
  rewrite Hact. cbv zeta. rewrite Hen1. unfold caller_frame. by rewrite Hframe.
Qed.

Lemma update_throws_without_json call store action w :
  enabled w = true →
  ¬ has_json (cur (stores w !!! store)) →
  update call store action w = Throw SyntaxError w.
Proof.
  intros Hen Hjson.
  apply (proj2 (clone_text_None (heap_of w) (cur (stores w !!! store)))) in Hjson.
  rewrite update_run. by rewrite Hen, snapshot_run, Hjson.
Qed.

(** C2 (violated by the code). With logging on, a stack text of fewer than
    five ['at ']-separated entries makes [update] throw a TypeError after the
    next state was computed and before the base container's [set]: nothing
    is published.  Likewise a previous state without a JSON text
    ([undefined], as in a store made by [loggable()]) makes it throw a
    SyntaxError before the action is even looked at. *)
Theorem update_aborted_by_logging_failure call store action w :
  let prev := cur (stores w !!! store) in
  enabled w = true →
  (has_json prev →
   ∀ partial w1,
     eval_action call action prev w = Ok partial w1 →
     enabled w1 = true →
     Str.split "at " (err_stack w1) !! 4 = None →
     ∃ w', update call store action w = Throw TypeError w'
           ∧ stores w' = stores w1 ∧ console w' = console w1)
  ∧ (¬ has_json prev → update call store action w = Throw SyntaxError w).
Proof.
  intros prev Hen. split.
  - intros Hjson partial w1 Hact Hen1 Hframe. eexists. split.
    + by apply update_throws_on_short_stack with (partial := partial) (w1 := w1).
    + done.
  - by apply update_throws_without_json.
Qed.

Lemma update_aborted_by_logging_failure_witness :
  enabled (messages_world true shallow_trace) = true
  ∧ Str.split "at " shallow_trace !! 4 = None
  ∧ (∃ w', update no_call 0 (VRef 1) (messages_world true shallow_trace) = Throw TypeError w'
           ∧ stores w' = stores (messages_world true shallow_trace)
           ∧ console w' = [])
  ∧ update no_call 0 (VRef 1) (empty_world true deep_trace)
    = Throw SyntaxError (empty_world true deep_trace).
Proof.
  split; [reflexivity|]. split; [vm_compute; reflexivity|]. split.
  - apply (proj1 (update_aborted_by_logging_failure no_call 0 (VRef 1)
                    (messages_world true shallow_trace) eq_refl) I (VRef 1)
             (messages_world true shallow_trace) eq_refl eq_refl).
    vm_compute. reflexivity.
  - apply (proj2 (update_aborted_by_logging_failure no_call 0 (VRef 1)
                    (empty_world true deep_trace) eq_refl)).
    intros [].
Defined.

(** When both runs complete, the flag changes the console only. *)
Lemma update_flag_only_affects_console call store p w w_on w_off :
  isFunction (heap_of w) p = false →
  update call store p (set_enabled true w) = Ok tt w_on →
  update call store p (set_enabled false w) = Ok tt w_off →
  stores w_on = stores w_off ∧ heap_of w_on = heap_of w_off ∧ console w_off = console w.
Proof.
  intros Hp Hon Hoff.
  destruct (update_ok_inv _ _ _ _ _ Hon)
    as (ps1 & q1 & u1 & _ & Hact1 & Hheap1 & Hstores1 & _).
  destruct (update_ok_inv _ _ _ _ _ Hoff)
    as (ps2 & q2 & u2 & _ & Hact2 & Hheap2 & Hstores2 & Hen2 & _ & Hcons2).
  rewrite eval_action_partial in Hact1 by done. injection Hact1 as <- <-.
  rewrite eval_action_partial in Hact2 by done. injection Hact2 as <- <-.
  rewrite Hstores1, Hstores2, Hheap1, Hheap2. by repeat split.
Qed.

(** C3 (violated by the code). From one and the same state, with a stack
    text of fewer than five entries, the run with the flag off publishes the
    next state and writes nothing to the console, while the run with the flag
    on throws and publishes nothing: the flag decides whether the state
    changes. *)
Theorem update_flag_decides_publication call store p w :
  let prev := cur (stores w !!! store) in
  isFunction (heap_of w) p = false →
  has_json prev →
  Str.split "at " (err_stack w) !! 4 = None →
  (∃ w_off,
     update call store p (set_enabled false w) = Ok tt w_off
     ∧ console w_off = console w
     ∧ published (stores w_off !!! store)
       = published (stores w !!! store) ++ [cur (stores w_off !!! store)])
  ∧ (∃ w_on,
       update call store p (set_enabled true w) = Throw TypeError w_on
       ∧ stores w_on = stores w).
Proof.
  intros prev Hp Hjson Hframe. split.
  - eexists. rewrite update_run, eval_action_partial by done. cbv zeta.
    split; [reflexivity|]. by rewrite publish_lookup.
  - eexists. split.
    + apply update_throws_on_short_stack
        with (partial := p) (w1 := set_enabled true w); try done.
      by apply eval_action_partial.
    + done.
Qed.

Lemma update_flag_decides_publication_witness :
  isFunction messages_heap (VRef 1) = false
  ∧ has_json (VRef 0)
  ∧ Str.split "at " shallow_trace !! 4 = None
  ∧ (∃ w_off,
       update no_call 0 (VRef 1) (messages_world false shallow_trace) = Ok tt w_off
       ∧ console w_off = []
       ∧ published (stores w_off !!! 0) = [] ++ [cur (stores w_off !!! 0)])
  ∧ (∃ w_on,
       update no_call 0 (VRef 1) (messages_world true shallow_trace) = Throw TypeError w_on
       ∧ stores w_on = {[ 0 := Cell (VRef 0) [] ]}).
Proof.
  split; [reflexivity|]. split; [exact I|]. split; [vm_compute; reflexivity|].
  apply (update_flag_decides_publication no_call 0 (VRef 1)
           (messages_world true shallow_trace)).
  - reflexivity.
  - exact I.
  - vm_compute. reflexivity.
Defined.

(** * The serializer cuts every cycle in place *)

Lemma JSON_stringify_unbounded {St} (rep : value -> string -> value -> St -> value * St)
    (h : heap) v st0 :
  JSON_stringify rep h v st0 = JSON_stringify_within (S (length h)) rep h v st0.
Proof. reflexivity. Qed.


(** ** Following keys in the text *)









(** ** Along a chain of open objects *)








(** ** A nesting deeper than the engine's budget *)





(** ** The claim about cycles *)




(** * Further properties of the orchestrator *)

Lemma own_props_kept (h : heap) o v :
  in_heap h v → own_props (h ++ [o]) v = own_props h v.
Proof.
  destruct v as [| |b|z|s|l|k f]; try done.
  simpl. intros Hl. by rewrite lookup_app_l.
Qed.

Lemma publish_other store ns w s :
  s ≠ store → stores (publish store ns w) !! s = stores w !! s.
Proof. intros Hs. unfold publish. simpl. by rewrite lookup_insert_ne. Qed.

(** X1. A completed [update] with a value that is not a function changes
    nothing it was not asked to change: the heap grows by exactly one object
    and every object that existed keeps its properties (neither the previous
    state nor the partial is modified in place), every other store is as it
    was, and so are the logging flag and the stack text. *)
Theorem update_touches_nothing_else call store action w w' :
  isFunction (heap_of w) action = false →
  update call store action w = Ok tt w' →
  (∃ o, heap_of w' = heap_of w ++ [o])
  ∧ (∀ v, in_heap (heap_of w) v → own_props (heap_of w') v = own_props (heap_of w) v)
  ∧ (∀ s, s ≠ store → stores w' !! s = stores w !! s)
  ∧ enabled w' = enabled w
  ∧ err_stack w' = err_stack w.
Proof.
  intros Hnf Hrun.
  destruct (update_ok_inv _ _ _ _ _ Hrun)
    as (ps & q & u & _ & Hact & Hheap & Hstores & Hen & Herr & _).
  rewrite eval_action_partial in Hact by done. injection Hact as <- <-.
  split; [by eexists|]. split.
  { intros v Hv. rewrite Hheap. by apply own_props_kept. }
  split; [|done].
  intros s Hs. rewrite Hstores. by rewrite lookup_insert_ne.
Qed.

Lemma update_touches_nothing_else_witness :
  isFunction messages_heap (VRef 1) = false
  ∧ ∃ w',
      update no_call 0 (VRef 1) (messages_world true deep_trace) = Ok tt w'
      ∧ (∃ o, heap_of w' = messages_heap ++ [o])
      ∧ enabled w' = true.
Proof.
  split; [reflexivity|].
  eexists. split; [vm_compute; reflexivity|].
  destruct (update_touches_nothing_else no_call 0 (VRef 1)
              (messages_world true deep_trace) _ eq_refl
              ltac:(vm_compute; reflexivity)) as (Hheap & _ & _ & Hen & _).
  split; [exact Hheap | exact Hen].
Defined.

(** X2. What a completed [update] publishes is always a newly allocated plain
    object: a location that did not exist when the merge was made, holding an
    object and not an array, also when the previous state or the partial is
    an array. *)
Theorem update_publishes_fresh_plain_object call store action w w' :
  update call store action w = Ok tt w' →
  ∃ partial w1 l m,
    eval_action call action (cur (stores w !!! store)) w = Ok partial w1
    ∧ cur (stores w' !!! store) = VRef l
    ∧ heap_of w1 !! l = None
    ∧ heap_of w' !! l = Some (OObj m)
    ∧ class_string (heap_of w') (VRef l) = "[object Object]".
Proof.
  intros Hrun.
  destruct (update_ok_inv _ _ _ _ _ Hrun)
    as (ps & partial & w1 & _ & Hact & Hheap & Hstores & _).
  exists partial, w1, (length (heap_of w1)), (spread (heap_of w1) (cur (stores w !!! store)) partial).
  assert (heap_of w' !! length (heap_of w1)
          = Some (OObj (spread (heap_of w1) (cur (stores w !!! store)) partial))) as Hl.
  { rewrite Hheap. by rewrite lookup_app_r, Nat.sub_diag. }
  rewrite Hstores, lookup_total_insert_eq. cbn [cur].
  split; [done|]. split; [done|]. split; [by apply lookup_ge_None_2|].
  split; [done|].
  simpl. by rewrite Hl.
Qed.

Lemma update_publishes_fresh_plain_object_witness :
  ∃ w',
    update no_call 0 (VRef 1)
      (World [OArr [VNum 7; VNum 8]; OObj ∅] false [] {[ 0 := Cell (VRef 0) [] ]} shallow_trace)
    = Ok tt w'
    ∧ ∃ partial w1 l m,
        eval_action no_call (VRef 1) (VRef 0)
          (World [OArr [VNum 7; VNum 8]; OObj ∅] false [] {[ 0 := Cell (VRef 0) [] ]}
             shallow_trace) = Ok partial w1
        ∧ cur (stores w' !!! 0) = VRef l
        ∧ heap_of w1 !! l = None
        ∧ heap_of w' !! l = Some (OObj m)
        ∧ class_string (heap_of w') (VRef l) = "[object Object]".
Proof.
  eexists. split; [vm_compute; reflexivity|].
  apply (update_publishes_fresh_plain_object no_call 0 (VRef 1)
           (World [OArr [VNum 7; VNum 8]; OObj ∅] false [] {[ 0 := Cell (VRef 0) [] ]}
              shallow_trace)).
  vm_compute. reflexivity.
Defined.

(** X3. An action that is not a function and has no own properties
    ([undefined], [null], a boolean, a number, the empty string, an async or
    generator function, an empty object) changes no property: a completed
    [update] or [set] with it publishes a copy of the previous state.  In
    particular [set(null)] and [set(undefined)] do not clear the state. *)
Theorem update_without_properties_copies_state call store action w w' :
  isFunction (heap_of w) action = false →
  own_props (heap_of w) action = ∅ →
  update call store action w = Ok tt w' →
  own_props (heap_of w') (cur (stores w' !!! store))
  = own_props (heap_of w) (cur (stores w !!! store)).
Proof.
  intros Hnf Hempty Hrun.
  destruct (update_ok_inv _ _ _ _ _ Hrun)
    as (ps & q & u & _ & Hact & Hheap & Hstores & _).
  rewrite eval_action_partial in Hact by done. injection Hact as <- <-.
  rewrite Hstores, lookup_total_insert_eq, Hheap. cbn [cur].
  rewrite own_props_alloc. unfold spread. rewrite Hempty. apply (left_id_L ∅ (∪)).
Qed.

Lemma update_without_properties_copies_state_witness :
  isFunction messages_heap VNull = false
  ∧ own_props messages_heap VNull = ∅
  ∧ isFunction messages_heap (VFun AsyncFun 0) = false
  ∧ ∃ w1 w2,
      update no_call 0 VNull (messages_world false shallow_trace) = Ok tt w1
      ∧ own_props (heap_of w1) (cur (stores w1 !!! 0)) = {[ "message" := VStr "hello" ]}
      ∧ update no_call 0 (VFun AsyncFun 0) (messages_world false shallow_trace) = Ok tt w2
      ∧ own_props (heap_of w2) (cur (stores w2 !!! 0)) = {[ "message" := VStr "hello" ]}.
Proof.
  split; [reflexivity|]. split; [reflexivity|]. split; [reflexivity|].
  eexists _, _. split; [vm_compute; reflexivity|]. split.
  { rewrite (update_without_properties_copies_state no_call 0 VNull
               (messages_world false shallow_trace) _ eq_refl eq_refl
               ltac:(vm_compute; reflexivity)).
    vm_compute. reflexivity. }
  split; [vm_compute; reflexivity|].
  rewrite (update_without_properties_copies_state no_call 0 (VFun AsyncFun 0)
             (messages_world false shallow_trace) _ eq_refl eq_refl
             ltac:(vm_compute; reflexivity)).
  vm_compute. reflexivity.
Defined.

(** X4. When the previous state has no own properties ([undefined] in a
    store made without an initial value, [null], a number), a completed
    [update] or [set] with a value that is not a function publishes an object
    with exactly the properties of that value: a copy of it, never the value
    itself. *)
Theorem update_of_empty_state_copies_value call store action w w' :
  isFunction (heap_of w) action = false →
  own_props (heap_of w) (cur (stores w !!! store)) = ∅ →
  update call store action w = Ok tt w' →
  own_props (heap_of w') (cur (stores w' !!! store)) = own_props (heap_of w) action
  ∧ (in_heap (heap_of w) action → cur (stores w' !!! store) ≠ action).
Proof.
  intros Hnf Hempty Hrun.
  destruct (update_ok_inv _ _ _ _ _ Hrun)
    as (ps & q & u & _ & Hact & Hheap & Hstores & _).
  rewrite eval_action_partial in Hact by done. injection Hact as <- <-.
  rewrite Hstores, lookup_total_insert_eq, Hheap. cbn [cur]. split.
  - rewrite own_props_alloc. unfold spread. rewrite Hempty. apply (right_id_L ∅ (∪)).
  - intros Hin <-. simpl in Hin. lia.
Qed.

Lemma update_of_empty_state_copies_value_witness :
  isFunction messages_heap (VRef 1) = false
  ∧ own_props messages_heap VUndef = ∅
  ∧ ∃ w',
      update no_call 0 (VRef 1) (empty_world false deep_trace) = Ok tt w'
      ∧ own_props (heap_of w') (cur (stores w' !!! 0)) = own_props messages_heap (VRef 1)
      ∧ cur (stores w' !!! 0) ≠ VRef 1.
Proof.
  split; [reflexivity|]. split; [reflexivity|].
  eexists. split; [vm_compute; reflexivity|].
  destruct (update_of_empty_state_copies_value no_call 0 (VRef 1)
              (empty_world false deep_trace) _ eq_refl eq_refl
              ltac:(vm_compute; reflexivity)) as [Hprops Hne].
  split; [exact Hprops|]. apply Hne. vm_compute. lia.
Defined.

(** * How updates compose *)

Lemma spread_after_spread (h : heap) prev p q :
  in_heap h q →
  spread (h ++ [OObj (spread h prev p)]) (VRef (length h)) q
  = own_props h q ∪ (own_props h p ∪ own_props h prev).
Proof.
  intros Hq. unfold spread at 1. by rewrite own_props_alloc, own_props_kept.
Qed.

Lemma update_partial_inv call store p w w' :
  isFunction (heap_of w) p = false →
  update call store p w = Ok tt w' →
  heap_of w' = heap_of w ++ [OObj (spread (heap_of w) (cur (stores w !!! store)) p)]
  ∧ cur (stores w' !!! store) = VRef (length (heap_of w)).
Proof.
  intros Hnf Hrun.
  destruct (update_ok_inv _ _ _ _ _ Hrun)
    as (ps & q & u & _ & Hact & Hheap & Hstores & _).
  rewrite eval_action_partial in Hact by done. injection Hact as <- <-.
  split; [done|]. by rewrite Hstores, lookup_total_insert_eq.
Qed.

Lemma update_twice_props call store p q w w1 w2 :
  isFunction (heap_of w) p = false →
  isFunction (heap_of w) q = false →
  in_heap (heap_of w) q →
  update call store p w = Ok tt w1 →
  update call store q w1 = Ok tt w2 →
  own_props (heap_of w2) (cur (stores w2 !!! store))
  = own_props (heap_of w) q
    ∪ (own_props (heap_of w) p ∪ own_props (heap_of w) (cur (stores w !!! store))).
Proof.
  intros Hp Hq Hin Hrun1 Hrun2.
  destruct (update_partial_inv _ _ _ _ _ Hp Hrun1) as [Hheap1 Hcur1].
  rewrite (isFunction_heap _ (heap_of w1)) in Hq.
  destruct (update_partial_inv _ _ _ _ _ Hq Hrun2) as [Hheap2 Hcur2].
  rewrite Hcur2, Hheap2, own_props_alloc, Hcur1, Hheap1.
  by apply spread_after_spread.
Qed.

(** X5. Two completed updates in a row compose as one: after [update(p)]
    and then [update(q)], with values that are not functions, the published
    state has the properties of [q], then those of [p] where [q] has none,
    then those of the original state: the later update wins on a shared key
    and no key is lost. *)
Theorem update_twice_is_one_merge call store p q w w1 w2 :
  isFunction (heap_of w) p = false →
  isFunction (heap_of w) q = false →
  in_heap (heap_of w) q →
  update call store p w = Ok tt w1 →
  update call store q w1 = Ok tt w2 →
  let prev := cur (stores w !!! store) in
  let next := own_props (heap_of w2) (cur (stores w2 !!! store)) in
  next = own_props (heap_of w) q ∪ (own_props (heap_of w) p ∪ own_props (heap_of w) prev)
  ∧ (∀ k x, own_props (heap_of w) q !! k = Some x → next !! k = Some x)
  ∧ (∀ k x, own_props (heap_of w) q !! k = None →
            own_props (heap_of w) p !! k = Some x → next !! k = Some x).
Proof.
  intros Hp Hq Hin Hrun1 Hrun2 prev next.
  assert (next = own_props (heap_of w) q
                 ∪ (own_props (heap_of w) p ∪ own_props (heap_of w) prev)) as Hnext
    by by eapply update_twice_props.
  split; [done|]. rewrite Hnext. split.
  - intros k x Hk. by apply lookup_union_Some_l.
  - intros k x Hk1 Hk2. rewrite lookup_union_r by done. by apply lookup_union_Some_l.
Qed.

Lemma update_twice_is_one_merge_witness :
  isFunction messages_heap (VRef 1) = false
  ∧ isFunction messages_heap (VRef 0) = false
  ∧ in_heap messages_heap (VRef 0)
  ∧ ∃ w1 w2,
      update no_call 0 (VRef 1) (messages_world true deep_trace) = Ok tt w1
      ∧ update no_call 0 (VRef 0) w1 = Ok tt w2
      ∧ own_props (heap_of w2) (cur (stores w2 !!! 0))
        = own_props messages_heap (VRef 0)
          ∪ (own_props messages_heap (VRef 1) ∪ own_props messages_heap (VRef 0)).
Proof.
  split; [reflexivity|]. split; [reflexivity|]. split; [vm_compute; lia|].
  eexists _, _. split; [vm_compute; reflexivity|]. split; [vm_compute; reflexivity|].
  refine (proj1 (update_twice_is_one_merge no_call 0 (VRef 1) (VRef 0)
                   (messages_world true deep_trace) _ _ eq_refl eq_refl _ _ _)).
  - vm_compute. lia.
  - vm_compute. reflexivity.
  - vm_compute. reflexivity.
Defined.

(** X6. Two updates whose partials have no key in common commute: done in
    either order, when all four calls complete, they leave states with the
    same properties. *)
Theorem updates_on_disjoint_keys_commute call store p q w wp wpq wq wqp :
  isFunction (heap_of w) p = false →
  isFunction (heap_of w) q = false →
  in_heap (heap_of w) p →
  in_heap (heap_of w) q →
  dom (own_props (heap_of w) p) ## dom (own_props (heap_of w) q) →
  update call store p w = Ok tt wp →
  update call store q wp = Ok tt wpq →
  update call store q w = Ok tt wq →
  update call store p wq = Ok tt wqp →
  own_props (heap_of wpq) (cur (stores wpq !!! store))
  = own_props (heap_of wqp) (cur (stores wqp !!! store)).
Proof.
  intros Hp Hq Hinp Hinq Hdisj H1 H2 H3 H4.
  rewrite (update_twice_props call store p q w wp wpq) by done.
  rewrite (update_twice_props call store q p w wq wqp) by done.
  rewrite !(assoc_L (∪)). f_equal.
  apply map_union_comm. by apply map_disjoint_dom. 
Qed.

Lemma updates_on_disjoint_keys_commute_witness :
  dom (own_props pair_heap (VRef 1)) ## dom (own_props pair_heap (VRef 2))
  ∧ ∃ wp wpq wq wqp,
      update no_call 0 (VRef 1) (pair_world false shallow_trace) = Ok tt wp
      ∧ update no_call 0 (VRef 2) wp = Ok tt wpq
      ∧ update no_call 0 (VRef 2) (pair_world false shallow_trace) = Ok tt wq
      ∧ update no_call 0 (VRef 1) wq = Ok tt wqp
      ∧ own_props (heap_of wpq) (cur (stores wpq !!! 0))
        = own_props (heap_of wqp) (cur (stores wqp !!! 0)).
Proof.
  assert (dom (own_props pair_heap (VRef 1)) ## dom (own_props pair_heap (VRef 2))) as Hd.
  { simpl. rewrite !dom_singleton_L. apply disjoint_singleton_l.
    by intros ?%elem_of_singleton. }
  split; [exact Hd|].
  eexists _, _, _, _.
  split; [vm_compute; reflexivity|]. split; [vm_compute; reflexivity|].
  split; [vm_compute; reflexivity|]. split; [vm_compute; reflexivity|].
  refine (updates_on_disjoint_keys_commute no_call 0 (VRef 1) (VRef 2)
            (pair_world false shallow_trace) _ _ _ _ eq_refl eq_refl _ _ Hd _ _ _ _).
  - vm_compute. lia.
  - vm_compute. lia.
  - vm_compute. reflexivity.
  - vm_compute. reflexivity.
  - vm_compute. reflexivity.
  - vm_compute. reflexivity.
Defined.

(** X7. An updater that only computes (it returns a value that is not a
    function and leaves the world as it found it) can be replaced by its
    result: [update(f)] and [update(f(prev))] are the same call, console
    report included.  The action is invoked once, on the previous state. *)
Theorem update_with_pure_updater call store f p w :
  call f (cur (stores w !!! store)) w = Ok p w →
  isFunction (heap_of w) p = false →
  update call store (VFun PlainFun f) w = update call store p w.
Proof.
  intros Hcall Hp. rewrite !update_run.
  rewrite eval_action_function, Hcall, (eval_action_partial call p) by done.
  reflexivity.
Qed.

Lemma update_with_pure_updater_witness :
  constant_call 0 (VRef 0) (messages_world true deep_trace)
    = Ok (VRef 1) (messages_world true deep_trace)
  ∧ isFunction messages_heap (VRef 1) = false
  ∧ update constant_call 0 (VFun PlainFun 0) (messages_world true deep_trace)
    = update constant_call 0 (VRef 1) (messages_world true deep_trace).
Proof.
  split; [reflexivity|]. split; [reflexivity|].
  apply (update_with_pure_updater constant_call 0 0 (VRef 1)
           (messages_world true deep_trace)); reflexivity.
Defined.

(** * Exceptions pass through [update] *)

(** X8. [update] has no handler of its own.  When logging is on and taking
    the snapshot of the previous state throws, that exception leaves
    [update] and the action is never looked at.  When the snapshot was taken
    (or logging is off) and the updater function throws, its exception
    leaves [update] with the world as the updater left it.  In both cases
    [update] has published nothing and reported nothing. *)
Theorem update_propagates_exceptions call store action w e w1 :
  let prev := cur (stores w !!! store) in
  (enabled w = true ∧ snapshot prev w = Throw e w1)
  ∨ ((enabled w = true → ∃ ps, snapshot prev w = Ok ps w)
     ∧ eval_action call action prev w = Throw e w1) →
  update call store action w = Throw e w1.
Proof.
  intros prev [[Hen Hsnap]|[Hsnap Hact]]; rewrite update_run; fold prev.
  - by rewrite Hen, Hsnap.
  - destruct (enabled w).
    + destruct (Hsnap eq_refl) as [ps ->]. by rewrite Hact.
    + by rewrite Hact.
Qed.

Lemma update_propagates_exceptions_witness :
  (enabled (messages_world true deep_trace) = true →
   ∃ ps, snapshot (VRef 0) (messages_world true deep_trace)
         = Ok ps (messages_world true deep_trace))
  ∧ eval_action throwing_call (VFun PlainFun 0) (VRef 0) (messages_world true deep_trace)
    = Throw (Thrown (VStr "boom")) (messages_world true deep_trace)
  ∧ update throwing_call 0 (VFun PlainFun 0) (messages_world true deep_trace)
    = Throw (Thrown (VStr "boom")) (messages_world true deep_trace).
Proof.
  assert (enabled (messages_world true deep_trace) = true →
          ∃ ps, snapshot (VRef 0) (messages_world true deep_trace)
                = Ok ps (messages_world true deep_trace)) as Hsnap.
  { intros _. eexists. vm_compute. reflexivity. }
  split; [exact Hsnap|]. split; [reflexivity|].
  apply (update_propagates_exceptions throwing_call 0 (VFun PlainFun 0)
           (messages_world true deep_trace) (Thrown (VStr "boom"))
           (messages_world true deep_trace)).
  right. split; [exact Hsnap | reflexivity].
Defined.

(** * Logging and the state *)

(** X9. Logging does not change what is published: if [update] with a
    value that is not a function completes with the flag on, then from the
    same state it completes with the flag off as well, and the two runs leave
    the same stores and the same heap; the run with the flag off leaves the
    console as it was, the run with the flag on adds the five events of one
    report. *)
Theorem logging_leaves_the_state_alone call store p w w_on :
  isFunction (heap_of w) p = false →
  update call store p (set_enabled true w) = Ok tt w_on →
  ∃ w_off,
    update call store p (set_enabled false w) = Ok tt w_off
    ∧ stores w_on = stores w_off
    ∧ heap_of w_on = heap_of w_off
    ∧ console w_off = console w
    ∧ ∃ events, console w_on = console w ++ events ∧ length events = 5.
Proof.
  intros Hp Hon.
  destruct (update_ok_inv _ _ _ _ _ Hon)
    as (ps & q & u & _ & Hact & Hheap & Hstores & _ & _ & Hcons).
  rewrite eval_action_partial in Hact by done. injection Hact as <- <-.
  cbn [enabled set_enabled] in Hcons.
  destruct Hcons as (functionName & functionLink & _ & Hcons).
  eexists. split.
  { rewrite update_run, eval_action_partial by done. reflexivity. }
  rewrite Hstores, Hheap, Hcons. cbn [stores heap_of console set_enabled publish
    set_stores set_heap]. repeat split; try done.
  by eexists.
Qed.

Lemma logging_leaves_the_state_alone_witness :
  isFunction messages_heap (VRef 1) = false
  ∧ ∃ w_on w_off,
      update no_call 0 (VRef 1) (set_enabled true (messages_world false deep_trace)) = Ok tt w_on
      ∧ update no_call 0 (VRef 1) (set_enabled false (messages_world false deep_trace)) = Ok tt w_off
      ∧ stores w_on = stores w_off
      ∧ heap_of w_on = heap_of w_off
      ∧ console w_off = []
      ∧ ∃ events, console w_on = [] ++ events ∧ length events = 5.
Proof.
  split; [reflexivity|].
  eexists. 
  assert (update no_call 0 (VRef 1) (set_enabled true (messages_world false deep_trace))
          = Ok tt (publish 0 (VRef 2)
                     (set_console
                        (report (VStr "HTMLButtonElement.click_handler")
                                (VStr "(App.svelte:30:5)") (VRef 1)
                                (ArgParsed (JObj [("message", JStr "hello")])) (VRef 2))
                        (set_heap (messages_heap ++ [OObj (spread messages_heap (VRef 0) (VRef 1))])
                           (messages_world true deep_trace))))) as Hon.
  { vm_compute. reflexivity. }
  destruct (logging_leaves_the_state_alone no_call 0 (VRef 1)
              (messages_world false deep_trace) _ eq_refl Hon) as (w_off & H).
  exists w_off. split; [exact Hon | exact H].
Defined.

(** * The two decorators side by side *)

(** X10. With logging off, [merge(p)] of the merge decorator and
    [update(p)] (or [set(p)]) of the logging decorator are the same
    operation for every value [p] that is not a function: they leave the
    same world. *)
Theorem merge_is_update_without_logging call store p w :
  enabled w = false →
  isFunction (heap_of w) p = false →
  merge store p w = update call store p w.
Proof.
  intros Hen Hp. rewrite merge_run, update_run, Hen, eval_action_partial by done.
  cbv zeta. by rewrite Hen.
Qed.

Lemma merge_is_update_without_logging_witness :
  enabled (messages_world false deep_trace) = false
  ∧ isFunction messages_heap (VRef 1) = false
  ∧ merge 0 (VRef 1) (messages_world false deep_trace)
    = update no_call 0 (VRef 1) (messages_world false deep_trace).
Proof.
  split; [reflexivity|]. split; [reflexivity|].
  apply (merge_is_update_without_logging no_call 0 (VRef 1)
           (messages_world false deep_trace)); reflexivity.
Defined.

(** X11. A completed [merge] changes nothing it was not asked to change:
    the heap grows by exactly one object and every object that existed keeps
    its properties (neither the current state nor the merged value is
    modified in place), every other store is as it was, and so are the
    console, the logging flag and the stack text: [merge] has no logging
    path. *)
Theorem merge_touches_nothing_else store p w w' :
  merge store p w = Ok tt w' →
  (∃ o, heap_of w' = heap_of w ++ [o])
  ∧ (∀ v, in_heap (heap_of w) v → own_props (heap_of w') v = own_props (heap_of w) v)
  ∧ (∀ s, s ≠ store → stores w' !! s = stores w !! s)
  ∧ console w' = console w
  ∧ enabled w' = enabled w
  ∧ err_stack w' = err_stack w.
Proof.
  rewrite merge_run. intros [= <-].
  split; [by eexists|]. split.
  { intros v Hv. by apply own_props_kept. }
  split; [intros s Hs; by rewrite publish_other|]. done.
Qed.

Lemma merge_touches_nothing_else_witness :
  ∃ w',
    merge 0 (VRef 1) (messages_world true deep_trace) = Ok tt w'
    ∧ (∃ o, heap_of w' = messages_heap ++ [o])
    ∧ console w' = []
    ∧ enabled w' = true.
Proof.
  eexists. split; [vm_compute; reflexivity|].
  destruct (merge_touches_nothing_else 0 (VRef 1)
              (messages_world true deep_trace) _
              ltac:(vm_compute; reflexivity)) as (Hheap & _ & _ & Hcon & Hen & _).
  split; [exact Hheap|]. split; [exact Hcon | exact Hen].
Defined.

(** * Creating containers *)

Lemma writable_fresh init w :
  ∃ s w',
    writable init w = Ok s w'
    ∧ stores w !! s = None
    ∧ stores w' = <[s := Cell init []]> (stores w)
    ∧ heap_of w' = heap_of w ∧ console w' = console w
    ∧ enabled w' = enabled w ∧ err_stack w' = err_stack w.
Proof.
  eexists _, _. split; [reflexivity|]. split; [|done].
  apply not_elem_of_dom, is_fresh.
Qed.

(** X12. [loggable(store)] wraps the store it is given and changes nothing.
    [loggable()] makes a new base container, different from every existing
    one, holding [undefined] and having published nothing, and leaves the
    existing containers alone.  While logging is on, which it is when the
    module loads, the first [set] or [update] of such a container throws a
    SyntaxError whatever the action is, and the container stays empty. *)
Theorem loggable_without_store call w :
  (∀ s, ∃ lw, loggable call (Some s) w = Ok lw w ∧ w_store lw = s)
  ∧ ∃ lw w',
      loggable call None w = Ok lw w'
      ∧ stores w !! w_store lw = None
      ∧ stores w' !!! w_store lw = Cell VUndef []
      ∧ (∀ s, s ≠ w_store lw → stores w' !! s = stores w !! s)
      ∧ (enabled w = true →
         ∀ action, w_set lw action w' = Throw SyntaxError w'
                   ∧ w_update lw action w' = Throw SyntaxError w').
Proof.
  split; [intros s; by eexists|].
  destruct (writable_fresh VUndef w) as (s & w' & Hw & Hnew & Hstores & _ & _ & Hen & _).
  unfold loggable, loggableFunction, bind. rewrite Hw. unfold ret.
  eexists _, w'. split; [reflexivity|]. cbn [w_store w_set w_update].
  assert (stores w' !!! s = Cell VUndef []) as Hcell
    by by rewrite Hstores, lookup_total_insert_eq.
  split; [done|]. split; [done|]. split.
  { intros s' Hs'. by rewrite Hstores, lookup_insert_ne. }
  intros Hon action.
  assert (update call s action w' = Throw SyntaxError w') as Hthrow.
  { apply update_throws_without_json; [congruence|]. rewrite Hcell. simpl. tauto. }
  by split.
Qed.

Lemma loggable_without_store_witness :
  enabled (at_load deep_trace) = true
  ∧ ∃ lw w',
      loggable no_call None (at_load deep_trace) = Ok lw w'
      ∧ stores w' !!! w_store lw = Cell VUndef []
      ∧ w_set lw (VNum 1) w' = Throw SyntaxError w'.
Proof.
  split; [reflexivity|].
  destruct (proj2 (loggable_without_store no_call (at_load deep_trace)))
    as (lw & w' & Hlw & _ & Hcell & _ & Hthrow).
  exists lw, w'. split; [exact Hlw|]. split; [exact Hcell|].
  exact (proj1 (Hthrow eq_refl (VNum 1))).
Defined.

(** X13. A container made by [mergeable(initialValue)] is new and holds the
    initial value; its first [merge(p)] publishes, as the only notification
    so far, an object with the properties of the initial value overlaid by
    those of [p], and no other container is affected. *)
Theorem mergeable_then_merge initialValue p w :
  ∃ s w0 w',
    mergeable initialValue w = Ok s w0
    ∧ stores w !! s = None
    ∧ cur (stores w0 !!! s) = initialValue
    ∧ merge s p w0 = Ok tt w'
    ∧ published (stores w' !!! s) = [cur (stores w' !!! s)]
    ∧ own_props (heap_of w') (cur (stores w' !!! s))
      = own_props (heap_of w) p ∪ own_props (heap_of w) initialValue
    ∧ (∀ s', s' ≠ s → stores w' !! s' = stores w !! s').
Proof.
  destruct (writable_fresh initialValue w)
    as (s & w0 & Hw & Hnew & Hstores & Hheap & _).
  exists s, w0. eexists. split; [exact Hw|]. split; [done|].
  assert (stores w0 !!! s = Cell initialValue []) as Hcell
    by by rewrite Hstores, lookup_total_insert_eq.
  split; [by rewrite Hcell|]. split; [apply merge_run|].
  rewrite publish_lookup. cbn [cur published stores heap_of publish set_stores set_heap].
  rewrite Hcell. cbn [cur published].
  split; [done|]. split.
  - by rewrite own_props_alloc, Hheap.
  - intros s' Hs'. unfold publish. cbn [stores set_stores set_heap].
    by rewrite lookup_insert_ne, Hstores, lookup_insert_ne.
Qed.

(** * The serializer on states without cycles *)

Lemma path_rtc h r ks a : path h r ks a → rtc (edge h) r a.
Proof.
  induction 1 as [r|r k a ks b Hk _ IH]; [done|].
  eapply rtc_l; [by exists k | done].
Qed.

Lemma hits_root_cyclic (h : heap) r : hits h [r] r → cyclic h (VRef r).
Proof.
  intros Hhits.
  destruct (unfold_marks_cycle h [r] r Hhits (S (length h)) [] [] r)
    as (t & ks & a & _ & Hpath & Hcyc & _); try done.
  - apply NoDup_singleton.
  - intros b Hb. by apply elem_of_nil in Hb.
  - simpl. lia.
  - constructor.
  - exists r, a. split; [done|]. split; [by eapply path_rtc | done].
Qed.

Lemma ser_entries_plain {A} (f : string -> value -> unit -> sres A)
    (g : string -> value -> A) es :
  (∀ k x, (k, x) ∈ es → f k x tt = SOk (g k x) tt) →
  ser_entries f es tt = SOk (map (fun e => (fst e, g (fst e) (snd e))) es) tt.
Proof.
  induction es as [|[k x] es IH]; intros Hf; simpl; [done|].
  rewrite Hf by (by left). rewrite IH; [done|].
  intros k' x' Hin. apply Hf. by right.
Qed.

(** Without a replacer, as long as the traversal meets no object that is
    already open, [JSON.stringify] builds the plain unfolding of the heap. *)
Lemma plain_refines (h : heap) n :
  ∀ B holder key x ks,
    NoDup B →
    (∀ a, a ∈ B → (a < length h)%nat) →
    (length h < n + length B)%nat →
    (∀ l, x = VRef l → (l ∉ B) ∧ (¬ hits h (B ++ [l]) l)) →
    SerializeJSONProperty no_replacer h n B holder key x tt
    = SOk (unfold h n B ks x) tt.
Proof.
  induction n as [|n IH]; intros B holder key x ks Hnd Hval Hfuel Hx.
  { pose proof (open_chain_bounded h _ Hnd Hval). lia. }
  rewrite SerializeJSONProperty_eq. unfold no_replacer at 1. cbv iota beta.
  destruct x as [| |b|z|s|l|k f]; try done.
  destruct (Hx l eq_refl) as [HlB Hnohit].
  rewrite bool_decide_eq_false_2 by done.
  rewrite unfold_enter by by apply position_None.
  cbv zeta.
  assert (ser_entries (SerializeJSONProperty no_replacer h n (B ++ [l]) (VRef l))
            (entries h l) tt
          = SOk (map (fun e => (fst e, unfold h n (B ++ [l]) (ks ++ [fst e]) (snd e)))
                     (entries h l)) tt) as Hrun.
  { apply (ser_entries_plain _ (fun k y => unfold h n (B ++ [l]) (ks ++ [k]) y)).
    intros k y Hin. apply entries_own_props in Hin.
    apply IH.
    - by apply NoDup_snoc_fresh.
    - intros a [Ha| ->%list_elem_of_singleton]%elem_of_app; [by apply Hval|].
      by eapply own_props_valid.
    - rewrite length_app. simpl. lia.
    - intros a ->. split.
      + intros Ha. apply Hnohit. by eapply hits_now.
      + intros Hhit. apply Hnohit. by eapply hits_later. }
  unfold entries in Hrun.
  destruct (h !! l) as [[m|xs]|] eqn:Hl; simpl in Hrun.
  - rewrite Hrun. unfold entries. by rewrite Hl.
  - rewrite Hrun. unfold entries. by rewrite Hl.
  - unfold entries. by rewrite Hl.
Qed.

(** X14. On a state without a reference cycle the serializer is
    transparent: [JSON.stringify(v, serializer())] returns the very text
    [JSON.stringify(v)] returns.  No placeholder is inserted for an object
    that is merely referenced twice; every occurrence is written out in
    full. *)
Theorem serializer_transparent_without_cycle (h : heap) (v : value) :
  ¬ cyclic h v →
  ∃ text st,
    JSON_stringify (serializer None None) h v serializer_init = SOk text st
    ∧ JSON_stringify no_replacer h v tt = SOk text tt.
Proof.
  intros Hacyclic.
  destruct (JSON_stringify_serializer h v) as (st & Hser).
  eexists _, st. split; [exact Hser|].
  unfold JSON_stringify. apply plain_refines.
  - apply NoDup_nil_2.
  - intros a Ha. by apply elem_of_nil in Ha.
  - simpl. lia.
  - intros l ->. split; [apply not_elem_of_nil|].
    intros Hhit. apply Hacyclic. by apply hits_root_cyclic.
Qed.

Lemma shared_heap_edges a b : edge shared_heap a b → a = 0 ∧ b = 1.
Proof.
  intros [k Hk]. destruct a as [|[|a]]; simpl in Hk.
  - destruct (decide (k = "a")) as [->|Ha]; [by simplify_map_eq|].
    destruct (decide (k = "b")) as [->|Hb]; by simplify_map_eq.
  - destruct (decide (k = "x")) as [->|Hx]; by simplify_map_eq.
  - by rewrite lookup_empty in Hk.
Defined.

Lemma shared_heap_acyclic : ¬ cyclic shared_heap (VRef 0).
Proof.
  intros (r & a & _ & _ & Hcyc).
  assert (∀ x y, tc (edge shared_heap) x y → x = 0 ∧ y = 1) as Htc.
  { induction 1 as [x y He|x y z He _ IH].
    - by apply shared_heap_edges.
    - apply shared_heap_edges in He. split; [apply He | apply IH]. }
  destruct (Htc _ _ Hcyc). congruence.
Defined.

Example stringify_shared_reference :
  ∃ st,
    JSON_stringify (serializer None None) shared_heap (VRef 0) serializer_init
    = SOk (Some (JObj [("a", JObj [("x", JNum 1)]); ("b", JObj [("x", JNum 1)])])) st.
Proof. eexists. vm_compute. reflexivity. Qed.

Lemma serializer_transparent_without_cycle_witness :
  ¬ cyclic shared_heap (VRef 0)
  ∧ ∃ text st,
      JSON_stringify (serializer None None) shared_heap (VRef 0) serializer_init = SOk text st
      ∧ JSON_stringify no_replacer shared_heap (VRef 0) tt = SOk text tt.
Proof.
  split; [exact shared_heap_acyclic|].
  exact (serializer_transparent_without_cycle shared_heap (VRef 0) shared_heap_acyclic).
Defined.

(** * Cutting the stack text *)

Lemma prefix_nil s : String.prefix EmptyString s = true.
Proof. by destruct s. Qed.

Lemma prefix_cons a s1 b s2 :
  String.prefix (String a s1) (String b s2)
  = if ascii_dec a b then String.prefix s1 s2 else false.
Proof. reflexivity. Qed.

Lemma prefix_self sep b : String.prefix sep (sep +:+ b) = true.
Proof.
  induction sep as [|c sep IH]; [apply prefix_nil|].
  rewrite append_cons, prefix_cons. by destruct (ascii_dec c c).
Qed.

Lemma prefix_app_l sep x y : String.prefix sep x = true → String.prefix sep (x +:+ y) = true.
Proof.
  revert x. induction sep as [|c sep IH]; intros x Hx; [apply prefix_nil|].
  destruct x as [|d x]; [done|]. rewrite append_cons, prefix_cons.
  rewrite prefix_cons in Hx. destruct (ascii_dec c d); [by apply IH | done].
Qed.

Lemma prefix_app_r sep y b :
  (String.length sep ≤ String.length y)%nat →
  String.prefix sep (y +:+ b) = String.prefix sep y.
Proof.
  revert y. induction sep as [|c sep IH]; intros y Hlen.
  - by rewrite !prefix_nil.
  - destruct y as [|d y]; [simpl in Hlen; lia|].
    rewrite append_cons, !prefix_cons.
    destruct (ascii_dec c d); [|done]. apply IH. simpl in Hlen. lia.
Qed.

Lemma prefix_cut sep s :
  String.prefix sep s = true → s = sep +:+ sdrop (String.length sep) s.
Proof.
  revert s. induction sep as [|c sep IH]; intros s Hs; [done|].
  destruct s as [|d s]; [done|]. rewrite prefix_cons in Hs.
  destruct (ascii_dec c d) as [->|]; [|done].
  simpl. rewrite append_cons. f_equal. by apply IH.
Qed.

Lemma length_append s t : String.length (s +:+ t) = (String.length s + String.length t)%nat.
Proof. induction s as [|c s IH]; [done|]. rewrite append_cons. simpl. by rewrite IH. Qed.

Lemma split_go_eq sep skip acc s :
  Str.split_go sep skip acc s =
  match s with
  | EmptyString => [acc]
  | String c s' =>
      match skip with
      | S k => Str.split_go sep k acc s'
      | O =>
          if String.prefix sep s
          then acc :: Str.split_go sep (String.length sep - 1) EmptyString s'
          else Str.split_go sep 0 (acc +:+ String c EmptyString) s'
      end
  end.
Proof. by destruct s. Qed.

Lemma split_go_skip sep u acc b :
  Str.split_go sep (String.length u) acc (u +:+ b) = Str.split_go sep 0 acc b.
Proof.
  induction u as [|c u IH]; [done|].
  rewrite append_cons, split_go_eq. simpl String.length. exact IH.
Qed.

Lemma split_go_nonempty sep skip acc s : Str.split_go sep skip acc s ≠ [].
Proof.
  revert skip acc. induction s as [|c s IH]; intros skip acc; [done|].
  rewrite split_go_eq. destruct skip; [|apply IH].
  destruct (String.prefix sep (String c s)); [done | apply IH].
Qed.

Lemma join_cons sep x l : l ≠ [] → Str.join sep (x :: l) = x +:+ sep +:+ Str.join sep l.
Proof. by destruct l. Qed.

Lemma split_go_join c0 sep' s :
  ∀ skip acc,
    Str.join (String c0 sep') (Str.split_go (String c0 sep') skip acc s)
    = acc +:+ sdrop skip s.
Proof.
  induction s as [|c s IH]; intros skip acc.
  - destruct skip; simpl; by rewrite append_nil_r.
  - rewrite split_go_eq. destruct skip as [|k]; [|apply IH].
    destruct (String.prefix (String c0 sep') (String c s)) eqn:Hpre.
    + rewrite join_cons by apply split_go_nonempty.
      rewrite IH, append_nil_l.
      apply prefix_cut in Hpre. simpl in Hpre.
      replace (String.length (String c0 sep') - 1)%nat with (String.length sep')
        by (simpl; lia).
      change (sdrop 0 (String c s)) with (String c s). by rewrite Hpre at 1.
    + rewrite IH. simpl. rewrite append_assoc. by rewrite append_cons.
Qed.

(** X15. Cutting a text at a non-empty separator loses nothing: joining the
    pieces of [s.split(sep)] with [sep] gives [s] back, and there is always
    at least one piece. *)
Theorem split_then_join (sep s : string) :
  sep ≠ EmptyString →
  Str.join sep (Str.split sep s) = s ∧ Str.split sep s ≠ [].
Proof.
  intros Hsep. destruct sep as [|c0 sep']; [done|]. split.
  - unfold Str.split. by rewrite split_go_join.
  - apply split_go_nonempty.
Qed.

Lemma split_then_join_witness :
  "at " ≠ EmptyString
  ∧ Str.join "at " (Str.split "at " deep_trace) = deep_trace
  ∧ Str.split "at " deep_trace ≠ [].
Proof.
  split; [discriminate|]. apply (split_then_join "at " deep_trace). discriminate.
Defined.

Lemma starts_inside_cons sep c a tail :
  starts_inside sep (String c a) tail
  = String.prefix sep (String c a +:+ tail) || starts_inside sep a tail.
Proof. reflexivity. Qed.

Lemma split_go_cut c0 sep' a :
  ∀ acc b,
    starts_inside (String c0 sep') a (String c0 sep') = false →
    Str.split_go (String c0 sep') 0 acc (a +:+ String c0 sep' +:+ b)
    = (acc +:+ a) :: Str.split_go (String c0 sep') 0 EmptyString b.
Proof.
  induction a as [|c a IH]; intros acc b Hfree.
  - rewrite append_nil_l, append_nil_r, append_cons, split_go_eq.
    rewrite <- append_cons, prefix_self.
    replace (String.length (String c0 sep') - 1)%nat with (String.length sep')
      by (simpl; lia).
    by rewrite split_go_skip.
  - rewrite starts_inside_cons in Hfree.
    apply orb_false_iff in Hfree as [Hhere Hlater].
    rewrite append_cons, split_go_eq.
    rewrite <- append_cons, <- append_assoc, prefix_app_r, Hhere.
    + rewrite IH by done. by rewrite append_assoc, append_cons.
    + rewrite length_append. lia.
Qed.

Lemma split_go_whole sep a :
  ∀ acc,
    starts_inside sep a sep = false →
    Str.split_go sep 0 acc a = [acc +:+ a].
Proof.
  induction a as [|c a IH]; intros acc Hfree.
  - by rewrite append_nil_r.
  - rewrite starts_inside_cons in Hfree.
    apply orb_false_iff in Hfree as [Hhere Hlater].
    rewrite split_go_eq.
    destruct (String.prefix sep (String c a)) eqn:Hpre.
    + apply (prefix_app_l _ _ sep) in Hpre. congruence.
    + rewrite IH by done. by rewrite append_assoc, append_cons.
Qed.

(** Cutting at the first separator, and a text without separator. *)
Lemma split_cut sep a b :
  sep ≠ EmptyString →
  starts_inside sep a sep = false →
  Str.split sep (a +:+ sep +:+ b) = a :: Str.split sep b.
Proof.
  intros Hsep Hfree. destruct sep as [|c0 sep']; [done|].
  unfold Str.split. by rewrite split_go_cut.
Qed.

Lemma split_whole sep a :
  starts_inside sep a sep = false → Str.split sep a = [a].
Proof. intros Hfree. unfold Str.split. by rewrite split_go_whole. Qed.

Lemma concat_empty_cons x xs :
  String.concat EmptyString (x :: xs) = x +:+ String.concat EmptyString xs.
Proof. destruct xs; simpl; [by rewrite append_nil_r | done]. Qed.

Lemma trace_text_split head frames :
  Forall (fun p => at_free p = true) (trace_pieces head frames) →
  Str.split "at " (head +:+ String.concat EmptyString (map (fun f => frame_sep +:+ f) frames))
  = trace_pieces head frames.
Proof.
  revert head. induction frames as [|f fs IH]; intros head Hfree.
  - simpl. rewrite append_nil_r. apply split_whole.
    apply Forall_cons_1 in Hfree as [Hhead _]. by apply negb_true_iff in Hhead.
  - cbn [map trace_pieces] in *. apply Forall_cons_1 in Hfree as [Hhead Hrest].
    rewrite concat_empty_cons.
    change (frame_sep +:+ f) with ((frame_gap +:+ "at ") +:+ f).
    rewrite !append_assoc, <- (append_assoc head frame_gap).
    rewrite split_cut; [|done|by apply negb_true_iff in Hhead].
    by rewrite IH.
Qed.

Lemma trace_pieces_length head frames :
  length (trace_pieces head frames) = S (length frames).
Proof. revert head. induction frames as [|f fs IH]; intros head; simpl; [done|]. by rewrite IH. Qed.

(** X16. A stack text of the V8 form, whose frames do not themselves contain
    ['at '], is cut at its frames: the pieces [update] looks at are the
    header and then one piece per frame.  Hence the entry [update] uses exists
    exactly when the stack has at least four frames; with three frames or
    fewer (a [set] made directly from an event handler or from the top level
    of a module) every logged [update] of a state that has a JSON text, by a
    value that is not a function, throws a TypeError. *)
Theorem logged_update_needs_four_frames call store action w frames :
  let prev := cur (stores w !!! store) in
  err_stack w = stack_text frames →
  Forall (fun p => at_free p = true) (trace_pieces "Error" frames) →
  Str.split "at " (err_stack w) = trace_pieces "Error" frames
  ∧ (is_Some (caller_frame (err_stack w)) ↔ (4 ≤ length frames)%nat)
  ∧ (enabled w = true → has_json prev → isFunction (heap_of w) action = false →
     (length frames < 4)%nat →
     ∃ w', update call store action w = Throw TypeError w' ∧ stores w' = stores w).
Proof.
  intros prev Htext Hfree.
  assert (Str.split "at " (err_stack w) = trace_pieces "Error" frames) as Hsplit.
  { rewrite Htext. unfold stack_text. by apply trace_text_split. }
  split; [done|]. split.
  - unfold caller_frame. rewrite Hsplit.
    destruct (trace_pieces "Error" frames !! 4) as [p|] eqn:Hp.
    + split; [intros _|by eexists].
      apply lookup_lt_Some in Hp. rewrite trace_pieces_length in Hp. lia.
    + split; [by intros [? ?]|]. intros Hlen.
      apply lookup_ge_None_1 in Hp. rewrite trace_pieces_length in Hp. lia.
  - intros Hen Hjson Hnf Hlen. eexists. split.
    + apply update_throws_on_short_stack with (partial := action) (w1 := w); try done.
      * by apply eval_action_partial.
      * rewrite Hsplit. apply lookup_ge_None_2. rewrite trace_pieces_length. lia.
    + done.
Qed.

Lemma logged_update_needs_four_frames_witness :
  err_stack (messages_world true shallow_trace)
    = stack_text [ "update (store.util.ts:81:17)"; "Object.set (store.util.ts:13:7)";
                   "main.ts:5:15" ]
  ∧ Forall (fun p => at_free p = true)
      (trace_pieces "Error" [ "update (store.util.ts:81:17)";
                              "Object.set (store.util.ts:13:7)"; "main.ts:5:15" ])
  ∧ ∃ w', update no_call 0 (VRef 1) (messages_world true shallow_trace) = Throw TypeError w'
          ∧ stores w' = stores (messages_world true shallow_trace).
Proof.
  assert (Forall (fun p => at_free p = true)
            (trace_pieces "Error" [ "update (store.util.ts:81:17)";
                                    "Object.set (store.util.ts:13:7)"; "main.ts:5:15" ]))
    as Hfree.
  { repeat constructor. }
  split; [reflexivity|]. split; [exact Hfree|].
  apply (proj2 (proj2 (logged_update_needs_four_frames no_call 0 (VRef 1)
                         (messages_world true shallow_trace) _ eq_refl Hfree))).
  - reflexivity.
  - exact I.
  - reflexivity.
  - simpl. lia.
Defined.

Lemma starts_inside_char c a tail :
  starts_inside (String c EmptyString) a tail
  = existsb (fun d => bool_decide (c = d)) (list_ascii_of_string a).
Proof.
  induction a as [|d a IH]; [done|].
  rewrite starts_inside_cons, append_cons, prefix_cons, prefix_nil, IH. simpl.
  destruct (ascii_dec c d).
  - by rewrite bool_decide_eq_true_2.
  - by rewrite bool_decide_eq_false_2.
Qed.

Lemma list_ascii_of_append a b :
  list_ascii_of_string (a +:+ b) = list_ascii_of_string a ++ list_ascii_of_string b.
Proof. induction a as [|c a IH]; [done|]. rewrite append_cons. simpl. by rewrite IH. Qed.

Lemma space_free_app a b :
  space_free a = true → space_free b = true → space_free (a +:+ b) = true.
Proof.
  unfold space_free. rewrite !negb_true_iff, !starts_inside_char, list_ascii_of_append.
  intros Ha Hb. by rewrite existsb_app, Ha, Hb.
Qed.

Lemma split_words name rest :
  space_free name = true →
  Str.split " " (name +:+ " " +:+ rest) = name :: Str.split " " rest.
Proof.
  intros Hname. apply split_cut; [done|]. by apply negb_true_iff in Hname.
Qed.

(** X17. For a stack text of the V8 form with at least four frames, the
    caller the console report names is the fourth frame, that is, two frames
    above the function that called [set] or [update].  When that frame reads
    [name (location)], the function name logged is [name]; the source
    location logged is the location text, followed by a line break unless
    the frame is the last of the stack. *)
Theorem logged_caller_is_fourth_frame f1 f2 f3 name loc more :
  let frames := f1 :: f2 :: f3 :: (name +:+ " " +:+ loc) :: more in
  Forall (fun p => at_free p = true) (trace_pieces "Error" frames) →
  space_free name = true →
  space_free loc = true →
  caller_frame (stack_text frames)
  = Some (VStr name,
          VStr (match more with [] => loc | _ :: _ => loc +:+ line_break end)).
Proof.
  intros frames Hfree Hname Hloc. unfold caller_frame, stack_text.
  rewrite trace_text_split by done. subst frames.
  destruct more as [|f5 more]; cbn [trace_pieces lookup list_lookup].
  - rewrite split_words by done.
    rewrite split_whole by by apply negb_true_iff in Hloc. done.
  - change frame_gap with (line_break +:+ " " +:+ "   ").
    rewrite !append_assoc, split_words by done.
    rewrite <- (append_assoc loc line_break), split_words; [done|].
    by apply space_free_app.
Qed.

Lemma logged_caller_is_fourth_frame_witness :
  Forall (fun p => at_free p = true)
    (trace_pieces "Error"
       [ "update (store.util.ts:81:17)"; "Object.set (store.util.ts:13:7)";
         "changeMessage (App.svelte:12:19)";
         "HTMLButtonElement.click_handler" +:+ " " +:+ "(App.svelte:30:5)";
         "HTMLButtonElement.dispatch (dom.js:3:1)" ])
  ∧ space_free "HTMLButtonElement.click_handler" = true
  ∧ space_free "(App.svelte:30:5)" = true
  ∧ caller_frame
      (stack_text
         [ "update (store.util.ts:81:17)"; "Object.set (store.util.ts:13:7)";
           "changeMessage (App.svelte:12:19)";
           "HTMLButtonElement.click_handler" +:+ " " +:+ "(App.svelte:30:5)";
           "HTMLButtonElement.dispatch (dom.js:3:1)" ])
    = Some (VStr "HTMLButtonElement.click_handler",
            VStr ("(App.svelte:30:5)" +:+ line_break)).
Proof.
  assert (Forall (fun p => at_free p = true)
    (trace_pieces "Error"
       [ "update (store.util.ts:81:17)"; "Object.set (store.util.ts:13:7)";
         "changeMessage (App.svelte:12:19)";
         "HTMLButtonElement.click_handler" +:+ " " +:+ "(App.svelte:30:5)";
         "HTMLButtonElement.dispatch (dom.js:3:1)" ])) as Hfree.
  { repeat constructor. }
  split; [exact Hfree|]. split; [reflexivity|]. split; [reflexivity|].
  exact (logged_caller_is_fourth_frame
           "update (store.util.ts:81:17)" "Object.set (store.util.ts:13:7)"
           "changeMessage (App.svelte:12:19)"
           "HTMLButtonElement.click_handler" "(App.svelte:30:5)"
           [ "HTMLButtonElement.dispatch (dom.js:3:1)" ] Hfree eq_refl eq_refl).
Defined.
